(** * mcwho: who is on the Minecraft server?

    A shallow embedding of [mcwho.go] (the [latest.log] / gzip archive
    version) and the properties of its presence-tracking engine:
    the tracker loop of [main], the renderer [getDisplay] / [getHowLong],
    the line extractor inside [readLog], the cursor logic of
    [getLogReader] and the tailing goroutine [Mcwho].

    Conventions.
    - Go [string]s are byte strings: [string] of the Standard Library.
    - Go [map[string]mcuser] is [gmap string mcuser]; a [range] over a map
      visits the entries in an unspecified order, so the renderer takes the
      visiting order as an explicit list.
    - [time.Time] is the number of nanoseconds since 0001-01-01T00:00:00Z,
      the instant Go's zero [Time] denotes; [time.Duration] is an [int64]
      count of nanoseconds.
    - [float64] is IEEE binary64 as specified by [SpecFloat].
    - Channel sends, [log.Fatal] and system calls are recorded in a trace of
      [action]s; results of system calls come from an explicit [world]. *)

From Stdlib Require Import ZArith String Ascii List Lia Bool DecimalString.
From Stdlib Require Import Floats.SpecFloat.
From stdpp Require Import base option list gmap strings sorting.

Local Open Scope string_scope.
Local Open Scope Z_scope.

(* ===================================================================== *)
(** * Part I: the program                                                *)
(* ===================================================================== *)

(** ** Data model *)

(** [time.Time], as nanoseconds since the zero time. *)
Definition Time := Z.

Definition zeroTime : Time := 0.

(** [t.After(u)] and [t.IsZero()]. *)
Definition After (t u : Time) : bool := u <? t.
Definition IsZero (t : Time) : bool := t =? 0.

(** [type mcuser struct { name string; since time.Time }] *)
Record mcuser := Mcuser {
  name : string;   (* user name *)
  since : Time     (* time logged on or off *)
}.

Global Instance mcuser_eq_dec : EqDecision mcuser.
Proof. solve_decision. Defined.

(** The zero value of [mcuser] ([var lastUser mcuser]). *)
Definition zeroUser : mcuser := Mcuser "" zeroTime.

(** [type userList map[string]mcuser] *)
Abbreviation userList := (gmap string mcuser).

(** Go's [error] values: the errors of [os], [gzip] and [fsnotify], told
    apart by their text, and [*time.ParseError] for a value that does not
    parse. *)
Inductive error :=
  | OSError (msg : string)
  | ParseError (value : string).

Global Instance error_eq_dec : EqDecision error.
Proof. solve_decision. Defined.

(** [err.Error()], as far as the program prints it. *)
Definition errorText (e : error) : string :=
  match e with
  | OSError msg => msg
  | ParseError value => "parsing time " ++ value
  end.

(** ** The presence tracker: the [select] loop of [main] *)

(** What the loop can receive: a user on [conch], a user on [disch]. (An
    error on [errch] ends the process with [log.Fatal].) *)
Inductive event :=
  | Conn (user : mcuser)
  | Disc (user : mcuser).

Global Instance event_eq_dec : EqDecision event.
Proof. solve_decision. Defined.

(** The two package-level tables. *)
Record tables := Tables {
  usersOn : userList;
  usersOff : userList
}.

(** [usersOn = make(userList); usersOff = make(userList)] *)
Definition initTables : tables := Tables ∅ ∅.

(** One iteration of the [select]:
<<
    case user = <-conch:
        delete(usersOff, user.name)
        usersOn[user.name] = user
    case user = <-disch:
        delete(usersOn, user.name)
        usersOff[user.name] = user
>> *)
Definition step (st : tables) (ev : event) : tables :=
  match ev with
  | Conn user =>
      let off := delete (name user) (usersOff st) in
      Tables (<[name user := user]> (usersOn st)) off
  | Disc user =>
      let on := delete (name user) (usersOn st) in
      Tables on (<[name user := user]> (usersOff st))
  end.

(** The loop over a finite sequence of received events. *)
Definition track (st : tables) (evs : list event) : tables :=
  foldl step st evs.

(** ** Bytes, decimal output, [strings.Join] *)

Definition byte_eqb (a b : ascii) : bool := Ascii.eqb a b.

Definition isDigit (c : ascii) : bool :=
  ((48 <=? nat_of_ascii c) && (nat_of_ascii c <=? 57))%nat.

Definition digitVal (c : ascii) : Z := Z.of_nat (nat_of_ascii c) - 48.

(** The verb [%d] of [fmt.Sprintf]. *)
Definition itoa (n : Z) : string :=
  DecimalString.NilZero.string_of_int (Z.to_int n).

(** [strings.Join(elems, sep)] *)
Fixpoint strings_Join (elems : list string) (sep : string) : string :=
  match elems with
  | [] => ""
  | [e] => e
  | e :: rest => e ++ sep ++ strings_Join rest sep
  end.

(** ** Package [path]: [Ext], [Clean], [Join] *)

Definition slash : ascii := "/"%char.
Definition dot : ascii := "."%char.

(** The loop of [path.Ext], which walks from the last byte towards the
    first: [rpath] is what is left to visit (last byte first), [suffix] is
    [path[i+1:]].
<<
    for i := len(path) - 1; i >= 0 && path[i] != '/'; i-- {
        if path[i] == '.' { return path[i:] }
    }
    return ""
>> *)
Fixpoint ext_scan (rpath : list ascii) (suffix : string) : string :=
  match rpath with
  | [] => ""
  | c :: rest =>
      if byte_eqb c slash then ""
      else if byte_eqb c dot then String c suffix
      else ext_scan rest (String c suffix)
  end.

Definition Ext (path : string) : string :=
  ext_scan (rev (list_ascii_of_string path)) "".

(** The slash-separated elements of a path; [cur] holds the bytes of the
    element being read, last byte first. *)
Fixpoint elements_go (cur : list ascii) (s : string) : list string :=
  match s with
  | EmptyString => [string_of_list_ascii (rev cur)]
  | String c s' =>
      if byte_eqb c slash
      then string_of_list_ascii (rev cur) :: elements_go [] s'
      else elements_go (c :: cur) s'
  end.

Definition elements (path : string) : list string := elements_go [] path.

(** One element through the rules of [path.Clean]; [out] is the output so
    far, last element first. Empty elements and [.] vanish; [..] removes
    the element before it, is dropped at the root, and is kept where there
    is nothing to remove. *)
Definition clean_elem (rooted : bool) (out : list string) (e : string)
  : list string :=
  if decide (e = "" ∨ e = ".") then out
  else if decide (e = "..") then
    match out with
    | top :: below => if decide (top = "..") then e :: out else below
    | [] => if rooted then [] else [e]
    end
  else e :: out.

Definition isRooted (path : string) : bool :=
  match path with
  | String c _ => byte_eqb c slash
  | EmptyString => false
  end.

(** [path.Clean(path)] *)
Definition Clean (path : string) : string :=
  if decide (path = "") then "."
  else
    let rooted := isRooted path in
    let out := foldl (clean_elem rooted) [] (elements path) in
    let body := strings_Join (rev out) "/" in
    let res := if rooted then "/" ++ body else body in
    if decide (res = "") then "." else res.

(** [path.Join(dir, file)]: empty elements are ignored, the rest is joined
    with slashes and cleaned. *)
Definition Join (dir file : string) : string :=
  if decide (dir = "") then
    (if decide (file = "") then "" else Clean file)
  else Clean (dir ++ "/" ++ file).

Definition gzipext : string := ".gz".

(** ** Package [regexp], as far as the three patterns need it *)

(** A pattern is a sequence of items: a literal byte, a greedy repetition
    of a byte class, or a bracket of a capture group. Matching is the
    backtracking, leftmost-first matching of Go's [regexp]: a repetition
    first takes as many bytes as it can and gives them back one at a
    time. Go matches code points where this matches bytes; the literals
    and the bounds of the classes of the three patterns are ASCII, which
    never occurs inside the encoding of another code point, so the groups
    come out the same. *)
Inductive item :=
  | Lit (c : ascii)
  | Star (cls : ascii → bool)
  | Plus (cls : ascii → bool)
  | GOpen
  | GClose.

Definition regex := list item.

(** Groups closed so far (last first) and the bytes of the open group
    (last first). *)
Record mstate := MState {
  caps : list string;
  cur : option (list ascii)
}.

Definition eat (c : ascii) (st : mstate) : mstate :=
  MState (caps st) (cons c <$> cur st).

Definition openGroup (st : mstate) : mstate := MState (caps st) (Some []).

Definition closeGroup (st : mstate) : mstate :=
  MState (string_of_list_ascii (rev (default [] (cur st))) :: caps st) None.

(** Greedy repetition of [cls], then the continuation [k]. *)
Fixpoint rep (cls : ascii → bool) (k : string → mstate → option (list string))
    (s : string) (st : mstate) : option (list string) :=
  match s with
  | String c s' =>
      if cls c then
        match rep cls k s' (eat c st) with
        | Some r => Some r
        | None => k s st
        end
      else k s st
  | EmptyString => k s st
  end.

(** Match the pattern at the start of [s]; the result lists the groups,
    [matches[1]], [matches[2]], ... *)
Fixpoint matchHere (p : regex) (s : string) (st : mstate)
  : option (list string) :=
  match p with
  | [] => Some (rev (caps st))
  | Lit c :: p' =>
      match s with
      | String d s' => if byte_eqb c d then matchHere p' s' (eat d st) else None
      | EmptyString => None
      end
  | Star cls :: p' => rep cls (matchHere p') s st
  | Plus cls :: p' =>
      match s with
      | String d s' => if cls d then rep cls (matchHere p') s' (eat d st) else None
      | EmptyString => None
      end
  | GOpen :: p' => matchHere p' s (openGroup st)
  | GClose :: p' => matchHere p' s (closeGroup st)
  end.

(** [re.FindStringSubmatch(s)] for a pattern that starts with [^]. *)
Definition matchAnchored (p : regex) (s : string) : option (list string) :=
  matchHere p s (MState [] None).

(** [re.FindStringSubmatch(s)] for a pattern without anchor: the leftmost
    position where the pattern matches. *)
Fixpoint matchFirst (p : regex) (s : string) : option (list string) :=
  match matchHere p s (MState [] None) with
  | Some r => Some r
  | None =>
      match s with
      | String _ s' => matchFirst p s'
      | EmptyString => None
      end
  end.

Definition lits (s : string) : regex := Lit <$> list_ascii_of_string s.

(** The classes [\d], [[0-9:]], [.] (anything but a newline) and [\S]
    (anything but tab, newline, form feed, carriage return, space). *)
Definition cls_digit : ascii → bool := isDigit.
Definition cls_tod (c : ascii) : bool := isDigit c || byte_eqb c ":"%char.
Definition cls_any (c : ascii) : bool := negb (nat_of_ascii c =? 10)%nat.
Definition cls_nonspace (c : ascii) : bool :=
  let n := nat_of_ascii c in
  negb ((n =? 9) || (n =? 10) || (n =? 12) || (n =? 13) || (n =? 32))%nat.

(** [datere = regexp.MustCompile(`(\d+-\d+-\d+)`)] *)
Definition datere : regex :=
  [GOpen; Plus cls_digit; Lit "-"%char; Plus cls_digit; Lit "-"%char;
   Plus cls_digit; GClose].

(** [logonre = regexp.MustCompile(
      `^\[([0-9:]+)\] \[.*\]: (\S+)\[.*\] logged in with entity id`)] *)
Definition logonre : regex :=
  ([Lit "["%char; GOpen; Plus cls_tod; GClose] ++ lits "] [" ++
   [Star cls_any] ++ lits "]: " ++ [GOpen; Plus cls_nonspace; GClose] ++
   [Lit "["%char; Star cls_any] ++ lits "] logged in with entity id")%list.

(** [logoutre = regexp.MustCompile(
      `^\[([0-9:]+)\] \[.*\]: (\S+) lost connection:`)] *)
Definition logoutre : regex :=
  ([Lit "["%char; GOpen; Plus cls_tod; GClose] ++ lits "] [" ++
   [Star cls_any] ++ lits "]: " ++ [GOpen; Plus cls_nonspace; GClose] ++
   lits " lost connection:")%list.

(** ** Package [time]: civil dates, [time.Parse] for the one layout used *)

(** What the process knows of its surroundings: the abbreviation of the
    local time zone as [time.Now().Zone()] reports it; the local location
    as [time.Parse] consults it, [local.lookupName(name, unix)], which
    gives the offset in seconds east of UTC of the zone of that name (the
    one in effect at the Unix time [unix] when several share the name) or
    nothing when the location has no zone of that name; and the current
    date as [time.Now().Format("2006-01-02")] prints it. *)
Record env := Env {
  zone : string;
  lookupName : string → Z → option Z;
  today : string
}.

Definition isLeap (year : Z) : bool :=
  (year mod 4 =? 0) && (negb (year mod 100 =? 0) || (year mod 400 =? 0)).

Definition daysIn (month year : Z) : Z :=
  if month =? 2 then (if isLeap year then 29 else 28)
  else if (month =? 4) || (month =? 6) || (month =? 9) || (month =? 11)
  then 30 else 31.

(** Days of a common year before the first of [month]. *)
Definition daysBefore (month : Z) : Z :=
  nth (Z.to_nat (month - 1))
    [0; 31; 59; 90; 120; 151; 181; 212; 243; 273; 304; 334] 0.

(** Days from 0001-01-01 to the given date of the proleptic Gregorian
    calendar. *)
Definition daysSinceEpoch (year month day : Z) : Z :=
  let y := year - 1 in
  365 * y + y / 4 - y / 100 + y / 400
  + daysBefore month
  + (if isLeap year && (2 <? month) then 1 else 0)
  + (day - 1).

(** [time.Date(year, month, day, hour, min, sec, nsec, loc)] for a location
    [offset] seconds east of UTC. *)
Definition Date (year month day hour min sec nsec offset : Z) : Time :=
  ((daysSinceEpoch year month day * 86400 + hour * 3600 + min * 60 + sec)
   - offset) * 1000000000 + nsec.

(** [getnum]: one or two digits, exactly two when [fixed]. *)
Definition getnum (s : string) (fixed : bool) : option (Z * string) :=
  match s with
  | String a s1 =>
      if isDigit a then
        match s1 with
        | String b s2 =>
            if isDigit b then Some (digitVal a * 10 + digitVal b, s2)
            else if fixed then None else Some (digitVal a, s1)
        | EmptyString => if fixed then None else Some (digitVal a, s1)
        end
      else None
  | EmptyString => None
  end.

(** The chunk [2006]: four digits. *)
Definition getyear (s : string) : option (Z * string) :=
  match s with
  | String a (String b (String c (String d rest))) =>
      if isDigit a && isDigit b && isDigit c && isDigit d
      then Some (((digitVal a * 10 + digitVal b) * 10 + digitVal c) * 10
                 + digitVal d, rest)
      else None
  | _ => None
  end.

(** A literal byte of the layout. *)
Definition skipByte (c : ascii) (s : string) : option string :=
  match s with
  | String d rest => if byte_eqb c d then Some rest else None
  | EmptyString => None
  end.

Fixpoint cutspace (s : string) : string :=
  match s with
  | String c rest => if byte_eqb c " "%char then cutspace rest else s
  | EmptyString => s
  end.

(** A space of the layout: the value must not go on with another byte;
    all the spaces it starts with are passed. *)
Definition skipSpace (s : string) : option string :=
  match s with
  | String c _ => if byte_eqb c " "%char then Some (cutspace s) else None
  | EmptyString => Some s
  end.

Fixpoint takeDigits (s : string) : list ascii * string :=
  match s with
  | String c rest =>
      if isDigit c then let '(ds, r) := takeDigits rest in (c :: ds, r)
      else ([], s)
  | EmptyString => ([], s)
  end.

Definition digitsVal (ds : list ascii) : Z :=
  foldl (λ acc c, acc * 10 + digitVal c) 0 ds.

(** After the seconds: a fraction of a second in the value, though the
    layout has none, is read as nanoseconds. *)
Definition commaOrPeriod (c : ascii) : bool :=
  byte_eqb c "."%char || byte_eqb c ","%char.

Definition fraction (s : string) : Z * string :=
  match s with
  | String p s1 =>
      if commaOrPeriod p then
        match s1 with
        | String d _ =>
            if isDigit d then
              let '(ds, r) := takeDigits s1 in
              let ds9 := take 9 ds in
              (digitsVal ds9 * 10 ^ (9 - Z.of_nat (length ds9)), r)
            else (0, s)
        | EmptyString => (0, s)
        end
      else (0, s)
  | EmptyString => (0, s)
  end.

(** The numbers read from a value. *)
Record civil := Civil {
  c_year : Z; c_month : Z; c_day : Z;
  c_hour : Z; c_min : Z; c_sec : Z; c_nsec : Z
}.

(** The chunks ["2006-01-02 15:04:05"] of the layout: the numbers and
    what is left of the value. *)
Definition parseClock (value : string) : option (civil * string) :=
  '(year, v) ← getyear value;
  v ← skipByte "-"%char v;
  '(month, v) ← getnum v true;
  _ ← guard (0 < month ∧ month <= 12);
  v ← skipByte "-"%char v;
  '(day, v) ← getnum v true;
  v ← skipSpace v;
  '(hour, v) ← getnum v false;
  _ ← guard (hour < 24);
  v ← skipByte ":"%char v;
  '(min, v) ← getnum v true;
  _ ← guard (min < 60);
  v ← skipByte ":"%char v;
  '(sec, v) ← getnum v true;
  _ ← guard (sec < 60);
  let '(nsec, v) := fraction v in
  Some (Civil year month day hour min sec nsec, v).

(** A token without a space in it, and not empty. *)
Definition zoneToken (z : string) : bool :=
  negb (String.eqb z "") &&
  forallb (λ c, negb (byte_eqb c " "%char)) (list_ascii_of_string z).

(** *** The chunk [MST] of the layout *)

Definition isUpper (c : ascii) : bool :=
  ((65 <=? nat_of_ascii c) && (nat_of_ascii c <=? 90))%nat.

(** [value[:n], value[n:]]. *)
Fixpoint splitAt (n : nat) (value : string) : string * string :=
  match n, value with
  | S n', String c rest =>
      let '(a, b) := splitAt n' rest in (String c a, b)
  | _, _ => ("", value)
  end.

Definition byteAt (i : nat) (value : string) (c : ascii) : bool :=
  match String.get i value with
  | Some d => byte_eqb c d
  | None => false
  end.

Definition isSign (c : ascii) : bool :=
  byte_eqb c "-"%char || byte_eqb c "+"%char.

(** [parseSignedOffset]: the length of a sign and a number up to 23 at the
    start of [value], 0 when there is none. [leadingInt] reads the digits;
    a number that overflows it is refused like one above 23.
<<
    sign := value[0]
    if sign != '-' && sign != '+' { return 0 }
    x, rem, err := leadingInt(value[1:])
    if err != nil || value[1:] == rem { return 0 }
    if x > 23 { return 0 }
    return len(value) - len(rem)
>> *)
Definition parseSignedOffset (value : string) : nat :=
  match value with
  | String sign rest =>
      if isSign sign then
        let '(ds, _) := takeDigits rest in
        if (length ds =? 0)%nat then 0%nat
        else if 23 <? digitsVal ds then 0%nat
        else S (length ds)
      else 0%nat
  | EmptyString => 0%nat
  end.

(** [parseGMT]: [value] starts with ["GMT"].
<<
    value = value[3:]
    if len(value) == 0 { return 3 }
    return 3 + parseSignedOffset(value)
>> *)
Definition parseGMT (value : string) : nat :=
  match (splitAt 3 value).2 with
  | EmptyString => 3%nat
  | rest => (3 + parseSignedOffset rest)%nat
  end.

(** The capital letters [value] starts with, counted up to [limit]. *)
Fixpoint upperRun (limit : nat) (value : string) : nat :=
  match limit, value with
  | S l, String c rest => if isUpper c then S (upperRun l rest) else 0%nat
  | _, _ => 0%nat
  end.

(** [parseTimeZone]: the length of the zone abbreviation [value] starts
    with.
<<
    if len(value) < 3 { return 0, false }
    if len(value) >= 4 && (value[:4] == "ChST" || value[:4] == "MeST") {
        return 4, true
    }
    if value[:3] == "GMT" { length = parseGMT(value); return length, true }
    if value[0] == '+' || value[0] == '-' {
        length = parseSignedOffset(value)
        ok := length > 0
        return length, ok
    }
    var nUpper int
    for nUpper = 0; nUpper < 6; nUpper++ {
        if nUpper >= len(value) { break }
        if c := value[nUpper]; c < 'A' || 'Z' < c { break }
    }
    switch nUpper {
    case 0, 1, 2, 6: return 0, false
    case 5: if value[4] == 'T' { return 5, true }
    case 4: if value[3] == 'T' || value[:4] == "WITA" { return 4, true }
    case 3: return 3, true
    }
    return 0, false
>> *)
Definition parseTimeZone (value : string) : option nat :=
  if (String.length value <? 3)%nat then None
  else if String.prefix "ChST" value || String.prefix "MeST" value
  then Some 4%nat
  else if String.prefix "GMT" value then Some (parseGMT value)
  else if byteAt 0 value "+"%char || byteAt 0 value "-"%char then
    let n := parseSignedOffset value in
    if (0 <? n)%nat then Some n else None
  else
    match upperRun 6 value with
    | 5%nat => if byteAt 4 value "T"%char then Some 5%nat else None
    | 4%nat =>
        if byteAt 3 value "T"%char || String.prefix "WITA" value
        then Some 4%nat else None
    | 3%nat => Some 3%nat
    | _ => None
    end.

(** What the chunk [MST] finds: UTC itself, or the name of a zone. *)
Inductive zoneText :=
  | ZoneUTC
  | ZoneName (name : string).

(** The chunk [MST]:
<<
    if len(value) >= 3 && value[0:3] == "UTC" {
        z = UTC
        value = value[3:]
        break
    }
    n, ok := parseTimeZone(value)
    if !ok { err = errBad; break }
    zoneName, value = value[:n], value[n:]
>> *)
Definition parseZone (value : string) : option (zoneText * string) :=
  if String.prefix "UTC" value then Some (ZoneUTC, (splitAt 3 value).2)
  else
    n ← parseTimeZone value;
    let '(name, rest) := splitAt n value in
    Some (ZoneName name, rest).

(** [atoi] of a number with a sign, as [parseGMT] has checked it. *)
Definition atoi (s : string) : Z :=
  match s with
  | String c rest =>
      if byte_eqb c "-"%char then - digitsVal (takeDigits rest).1
      else if byte_eqb c "+"%char then digitsVal (takeDigits rest).1
      else digitsVal (takeDigits s).1
  | EmptyString => 0
  end.

(** The offset of the zone found: that of the local zone of this name,
    else hours after ["GMT"], else 0 in a made-up zone of this name.
<<
    if z != nil { return Date(year, Month(month), day, hour, min, sec, nsec, z), nil }
    if zoneName != "" {
        t := Date(year, Month(month), day, hour, min, sec, nsec, UTC)
        offset, ok := local.lookupName(zoneName, t.unixSec())
        if ok { t.addSec(-int64(offset)); t.setLoc(local); return t, nil }
        if len(zoneName) > 3 && zoneName[:3] == "GMT" {
            offset, _ = atoi(zoneName[3:])
            offset *= 3600
        }
        t.setLoc(FixedZone(zoneName, offset))
        return t, nil
    }
>> *)
Definition zoneOffsetOf (e : env) (z : zoneText) (unix : Z) : Z :=
  match z with
  | ZoneUTC => 0
  | ZoneName name =>
      match lookupName e name unix with
      | Some offset => offset
      | None =>
          if (3 <? String.length name)%nat && String.prefix "GMT" name
          then atoi (splitAt 3 name).2 * 3600
          else 0
      end
  end.

(** Seconds from 0001-01-01T00:00:00Z to 1970-01-01T00:00:00Z. *)
Definition unixToInternal : Z := 62135596800.

(** [t.unixSec()] of the numbers read, taken in UTC. *)
Definition unixOf (c : civil) : Z :=
  daysSinceEpoch (c_year c) (c_month c) (c_day c) * 86400
  + c_hour c * 3600 + c_min c * 60 + c_sec c - unixToInternal.

(** A value in the layout ["2006-01-02 15:04:05 MST"]: the numbers, the
    zone, nothing left over after it ([extra text] otherwise), the day
    checked against the month, and the instant in the zone found. *)
Definition parseFields (e : env) (value : string) : option Time :=
  '(c, v) ← parseClock value;
  v ← skipSpace v;
  '(z, v) ← parseZone v;
  _ ← guard (v = "");
  _ ← guard (1 <= c_day c ∧ c_day c <= daysIn (c_month c) (c_year c));
  Some (Date (c_year c) (c_month c) (c_day c) (c_hour c) (c_min c) (c_sec c)
             (c_nsec c) (zoneOffsetOf e z (unixOf c))).

(** The offset [time.Parse] finds for a value whose zone text is [z]:
    none when [z] is not, as a whole, a zone to [time.Parse]. *)
Definition zoneAccepted (e : env) (z : string) (unix : Z) : option Z :=
  '(zt, rest) ← parseZone z;
  _ ← guard (rest = "");
  Some (zoneOffsetOf e zt unix).

(** [time.Parse("2006-01-02 15:04:05 MST", value)]: the zero [Time] comes
    with every error. *)
Definition time_Parse (e : env) (value : string) : Time * option error :=
  match parseFields e value with
  | Some ts => (ts, None)
  | None => (zeroTime, Some (ParseError value))
  end.

(** ** [parseSince]
<<
    zone, _ := time.Now().Zone()
    since = fmt.Sprintf("%s %s", since, zone)
    ts, err := time.Parse("2006-01-02 15:04:05 MST", since)
    return ts, err
>> *)
Definition parseSince (e : env) (since : string) : Time * option error :=
  let since := since ++ " " ++ zone e in
  time_Parse e since.

(** ** The event extractor: the body of the read loop of [readLog]
<<
    if matches := logonre.FindStringSubmatch(line); matches != nil {
        since, _ := parseSince(date + " " + matches[1])
        conch <- mcuser{matches[2], since}
    } else if matches := logoutre.FindStringSubmatch(line); matches != nil {
        since, _ := parseSince(date + " " + matches[1])
        disch <- mcuser{matches[2], since}
    }
>> *)
Definition extractLine (e : env) (date line : string) : option event :=
  match matchAnchored logonre line with
  | Some matches =>
      let '(since, _) := parseSince e (date ++ " " ++ nth 0 matches "") in
      Some (Conn (Mcuser (nth 1 matches "") since))
  | None =>
      match matchAnchored logoutre line with
      | Some matches =>
          let '(since, _) := parseSince e (date ++ " " ++ nth 0 matches "") in
          Some (Disc (Mcuser (nth 1 matches "") since))
      | None => None
      end
  end.

(** Which of the two patterns a line matches, in the order the loop tries
    them, and the groups of the match. *)
Inductive kind := Login | Logout.

Definition matchLine (line : string) : option (kind * list string) :=
  match matchAnchored logonre line with
  | Some matches => Some (Login, matches)
  | None =>
      match matchAnchored logoutre line with
      | Some matches => Some (Logout, matches)
      | None => None
      end
  end.

Definition eventOf (k : kind) (user : mcuser) : event :=
  match k with
  | Login => Conn user
  | Logout => Disc user
  end.

(** ** [float64] and [time.Duration] *)

Definition float64 := spec_float.

(** [float64(n)] for an integer [n], rounded to nearest even. *)
Definition f64_of_int (n : Z) : float64 := binary_normalize 53 1024 n 0 false.

Definition f64_add : float64 → float64 → float64 := SFadd 53 1024.
Definition f64_div : float64 → float64 → float64 := SFdiv 53 1024.

Definition minInt64 : Z := - 2 ^ 63.
Definition maxInt64 : Z := 2 ^ 63 - 1.

(** [int(x)] for a [float64]: the fraction is discarded. *)
Definition int_of_f64 (x : float64) : Z :=
  match x with
  | S754_finite sign m e =>
      let a := if 0 <=? e then Z.pos m * 2 ^ e else Z.pos m / 2 ^ (- e) in
      if sign then - a else a
  | S754_zero _ => 0
  | _ => minInt64
  end.

Definition Second : Z := 1000000000.
Definition Minute : Z := 60 * Second.
Definition Hour : Z := 60 * Minute.

(** [d.Hours()], [d.Minutes()], [d.Seconds()]: the whole units and the
    rest are converted separately and added. Go's [/] and [%] on integers
    are [Z.quot] and [Z.rem]. *)
Definition Hours (d : Z) : float64 :=
  let hour := Z.quot d Hour in
  let nsec := Z.rem d Hour in
  f64_add (f64_of_int hour) (f64_div (f64_of_int nsec) (f64_of_int (60 * 60 * 1000000000))).

Definition Minutes (d : Z) : float64 :=
  let min := Z.quot d Minute in
  let nsec := Z.rem d Minute in
  f64_add (f64_of_int min) (f64_div (f64_of_int nsec) (f64_of_int (60 * 1000000000))).

Definition Seconds (d : Z) : float64 :=
  let sec := Z.quot d Second in
  let nsec := Z.rem d Second in
  f64_add (f64_of_int sec) (f64_div (f64_of_int nsec) (f64_of_int 1000000000)).

(** [t.Sub(u)]: the difference as a [Duration], which stops at the least
    and the greatest [int64]. *)
Definition Sub (t u : Time) : Z :=
  let d := t - u in
  if d <? minInt64 then minInt64
  else if maxInt64 <? d then maxInt64
  else d.

(** ** [getHowLong]; [now] is what [time.Now()] returns.
<<
    dur := time.Now().Sub(ts)
    days := int(dur.Hours()) / 24
    hours := int(dur.Hours()) % 24
    mins := int(dur.Minutes()) % 60
    secs := int(dur.Seconds()) % 60
    str := ""
    if days > 0 { str += fmt.Sprintf("%dd ", days) }
    if hours > 0 { str += fmt.Sprintf("%dh ", hours) }
    if mins > 0 { str += fmt.Sprintf("%dm", mins) }
    if len(str) == 0 { str += fmt.Sprintf("%ds", secs) }
    return str, nil
>> *)
Definition getHowLong (now ts : Time) : string * option error :=
  let dur := Sub now ts in
  let days := Z.quot (int_of_f64 (Hours dur)) 24 in
  let hours := Z.rem (int_of_f64 (Hours dur)) 24 in
  let mins := Z.rem (int_of_f64 (Minutes dur)) 60 in
  let secs := Z.rem (int_of_f64 (Seconds dur)) 60 in
  let str := "" in
  let str := if 0 <? days then str ++ (itoa days ++ "d ") else str in
  let str := if 0 <? hours then str ++ (itoa hours ++ "h ") else str in
  let str := if 0 <? mins then str ++ (itoa mins ++ "m") else str in
  let str := if (String.length str =? 0)%nat then str ++ (itoa secs ++ "s") else str in
  (str, None).

(** ** [getDisplay]

    The two [range] loops visit the tables in an order the language leaves
    open: [rangeOf m l] says that [l] is one of the orders in which a
    [range] can deliver the values of [m]. *)
Definition rangeOf (m : userList) (l : list mcuser) : Prop :=
  l ≡ₚ (map_to_list m).*2.

(** The loop over [usersOff]:
<<
    var lastUser mcuser
    for _, user := range usersOff {
        if user.since.After(lastUser.since) { lastUser = user }
    }
>> *)
Definition lastSeen (offs : list mcuser) : mcuser :=
  foldl (λ lastUser user,
           if After (since user) (since lastUser) then user else lastUser)
        zeroUser offs.

(** [getDisplay(usersOn, usersOff)], with [ons] and [offs] the values of
    the two tables in the order the [range] loops visit them. *)
Definition getDisplay (now : Time) (ons offs : list mcuser) : string :=
  let userInfo :=
    (λ user, let '(howLong, _) := getHowLong now (since user) in
             name user ++ " on for " ++ howLong) <$> ons in
  let count := Z.of_nat (length ons) in
  let hdr :=
    if count <? 1 then
      let lastUser := lastSeen offs in
      let '(howLong, _) := getHowLong now (since lastUser) in
      let '(lastName, howLong) :=
        if IsZero (since lastUser) then ("nobody", "ever")
        else (name lastUser, howLong) in
      "No players for " ++ howLong ++ " (" ++ lastName ++ ")"
    else if count =? 1 then "1 player: "
    else itoa count ++ " players: " in
  hdr ++ strings_Join userInfo ", ".

(** ** What the tailing goroutine does and sees *)

(** The visible steps of [Mcwho] and the functions under it. *)
Inductive action :=
  | Stdout (text : string)        (* fmt.Println, fmt.Printf *)
  | Open (path : string)          (* os.Open(path) *)
  | Send (ev : event)             (* conch <- user, disch <- user *)
  | SendErr (err : error)         (* errch <- err *)
  | Fatal (err : error).          (* log.Fatal(err): the process exits *)

Global Instance action_eq_dec : EqDecision action.
Proof. solve_decision. Defined.

(** What the system answers for one file at the time it is read.
    [f_bytes] is what a reader delivers from the start: the contents of a
    plain file, the decompressed stream of a gzip file. *)
Record file := File {
  f_open : option error;       (* os.Open fails *)
  f_gzip : option error;       (* gzip.NewReader fails *)
  f_stat : option error;       (* logf.Stat fails *)
  f_bytes : string;
  f_readErr : error;           (* what ends the reading: io.EOF or worse *)
  f_mtime : error + string;    (* os.Stat(logfile), the date of ModTime *)
  f_tell : option error        (* logf.Seek(0, os.SEEK_CUR) fails *)
}.

(** A [*bufio.Reader] on a file: the offset of the file where it starts,
    the bytes it will deliver and the error after them. *)
Record reader := Reader {
  r_off : Z;
  r_data : string;
  r_end : error
}.

Fixpoint dropBytes (n : nat) (s : string) : string :=
  match n, s with
  | O, _ => s
  | S n', String _ rest => dropBytes n' rest
  | S _, EmptyString => s
  end.

Definition fileSize (f : file) : Z := Z.of_nat (String.length (f_bytes f)).

(** ** [getLogReader]; the package variable [pos] is passed in and out.
<<
    if path.Ext(logfile) == gzipext {
        gzrdr, err := gzip.NewReader(logf)
        if err != nil { return nil, err }
        rdr = bufio.NewReader(gzrdr)
    } else {
        fi, err := logf.Stat()
        if err != nil { return nil, err }
        if fi.Size() < pos { pos = 0 }
        logf.Seek(pos, os.SEEK_SET)
        fmt.Printf("Starting read at offset %d\n", pos)
        rdr = bufio.NewReader(logf)
    }
    return rdr, nil
>> *)
Definition getLogReader (logfile : string) (logf : file) (pos : Z)
  : list action * (error + reader) * Z :=
  if decide (Ext logfile = gzipext) then
    match f_gzip logf with
    | Some err => ([], inl err, pos)
    | None => ([], inr (Reader 0 (f_bytes logf) (f_readErr logf)), pos)
    end
  else
    match f_stat logf with
    | Some err => ([], inl err, pos)
    | None =>
        let pos := if fileSize logf <? pos then 0 else pos in
        ([Stdout ("Starting read at offset " ++ itoa pos ++ "
")],
         inr (Reader pos (dropBytes (Z.to_nat pos) (f_bytes logf))
                     (f_readErr logf)),
         pos)
    end.

Definition newline : ascii := ascii_of_nat 10.

(** The successive results of [rdr.ReadString('\n')]: every line with its
    newline, and at last what is left (possibly nothing), which comes
    together with the error. *)
Fixpoint readStrings_go (cur : list ascii) (data : string) : list string :=
  match data with
  | EmptyString => [string_of_list_ascii (rev cur)]
  | String c rest =>
      if byte_eqb c newline
      then string_of_list_ascii (rev (c :: cur)) :: readStrings_go [] rest
      else readStrings_go (c :: cur) rest
  end.

Definition readStrings (data : string) : list string := readStrings_go [] data.

(** The date the lines of [logfile] are given:
<<
    date := time.Now().Format("2006-01-02")
    matches := datere.FindStringSubmatch(logfile)
    if matches != nil {
        date = matches[1]
    } else {
        var info os.FileInfo
        info, err = os.Stat(logfile)
        if err == nil { date = info.ModTime().Format("2006-01-02") }
    }
>>
    The second component is [err], the result variable of [readLog], as
    this leaves it. *)
Definition resolveDate (e : env) (logfile : string) (logf : file)
  : string * option error :=
  let date := today e in
  match matchFirst datere logfile with
  | Some matches => (nth 0 matches "", None)
  | None =>
      match f_mtime logf with
      | inr mdate => (mdate, None)
      | inl err => (date, Some err)
      end
  end.

(** The read loop, [for err == nil { line, err = rdr.ReadString('\n'); ... }]:
    it does not start when [err] is set already, and it runs until the
    reader gives an error. Results: the sends, the number of bytes taken
    from the reader, and [err] after the loop. *)
Definition readLoop (e : env) (date : string) (rdr : reader)
    (err : option error) : list action * Z * option error :=
  match err with
  | Some _ => ([], 0, err)
  | None =>
      (Send <$> omap (extractLine e date) (readStrings (r_data rdr)),
       Z.of_nat (String.length (r_data rdr)),
       Some (r_end rdr))
  end.

(** ** [readLog]
<<
    logf, err := os.Open(logfile)
    if err != nil { return err }
    defer logf.Close()
    rdr, err := getLogReader(logfile, logf)
    if err != nil { return err }
    ... the date, the read loop ...
    err = nil
    if path.Ext(logfile) != gzipext {
        pos, err = logf.Seek(0, os.SEEK_CUR)
    }
    return err
>> *)
Definition readLog (e : env) (logfile : string) (logf : file) (pos : Z)
  : list action * option error * Z :=
  match f_open logf with
  | Some err => ([Open logfile], Some err, pos)
  | None =>
      let '(out, rdr, pos) := getLogReader logfile logf pos in
      match rdr with
      | inl err => (Open logfile :: out, Some err, pos)
      | inr rdr =>
          let '(date, err) := resolveDate e logfile logf in
          let '(sends, taken, _) := readLoop e date rdr err in
          let trace := (Open logfile :: out ++ sends)%list in
          if decide (Ext logfile ≠ gzipext) then
            match f_tell logf with
            | Some err => (trace, Some err, 0)
            | None => (trace, None, r_off rdr + taken)
            end
          else (trace, None, pos)
      end
  end.

(** ** The surroundings of one run

    The answer to the request to watch a path (the error of
    [fsnotify.NewWatcher] or of [watcher.Watch], if any), the directory
    listing (the names in it, in any order, or an error) and the file found
    at each path during the first pass. *)
Record world := World {
  w_watch : string → option error;
  w_readdir : error + list string;
  w_file : string → file
}.

(** ** [setupWatcher]
<<
    watcher, err := fsnotify.NewWatcher()
    if err == nil { err = watcher.Watch(logPath) }
    if err != nil { log.Fatal(err) }
    return watcher, nil
>>
    A function either comes back with a result or ends the process. *)
Inductive outcome (A : Type) :=
  | Came (a : A)
  | Exit.
Arguments Came {A} a.
Arguments Exit {A}.

Definition setupWatcher (w : world) (logPath : string)
  : list action * outcome (option error) :=
  match w_watch w logPath with
  | Some err => ([Fatal err], Exit)
  | None => ([], Came None)
  end.

(** ** [Mcwho] *)

(** [ioutil.ReadDir]: the entries sorted by name. *)
Definition ReadDir (names : list string) : list string :=
  merge_sort String.le names.

(** What the [select] at the end of a round receives from the watcher. *)
Inductive wsignal :=
  | WEvent
  | WError (err : error).

(** How far the goroutine got: it ended the process, it returned, or it
    waits in [select] for a signal that the run given to it does not
    contain. *)
Inductive status :=
  | Exited
  | Returned
  | Waiting.

Global Instance status_eq_dec : EqDecision status.
Proof. solve_decision. Defined.

(** The first pass:
<<
    for i := range files {
        file := files[i]
        if path.Ext(file.Name()) != gzipext { continue }
        logFile := path.Join(logPath, file.Name())
        fmt.Println("reading log", logFile)
        err := readLog(logFile, conch, disch)
        if err != nil {
            fmt.Printf("Error reading log file %s: %s\n", logFile, err)
            errch <- err
            return
        }
    }
>>
    The result tells whether the function returned from inside the loop. *)
Fixpoint backfill (e : env) (logPath : string) (w : world)
    (files : list string) (pos : Z) : list action * bool * Z :=
  match files with
  | [] => ([], false, pos)
  | file :: files' =>
      if decide (Ext file ≠ gzipext) then backfill e logPath w files' pos
      else
        let logFile := Join logPath file in
        let '(tr, err, pos) := readLog e logFile (w_file w logFile) pos in
        let tr := (Stdout ("reading log " ++ logFile ++ "
") :: tr)%list in
        match err with
        | Some err =>
            ((tr ++ [Stdout ("Error reading log file " ++ logFile ++ ": "
                              ++ errorText err ++ "
");
                     SendErr err])%list, true, pos)
        | None =>
            let '(tr', ret, pos) := backfill e logPath w files' pos in
            ((tr ++ tr')%list, ret, pos)
        end
  end.

(** The second pass; [rounds] gives, for each round, the file as it is
    when read and the signal that then arrives.
<<
    for {
        err := readLog(logFile, conch, disch)
        if err != nil { errch <- err; return }
        select {
        case <-watcher.Event:
        case err := <-watcher.Error:
            errch <- err
            break
        }
    }
>>
    The [break] leaves the [select], not the loop. *)
Fixpoint tail (e : env) (logFile : string) (rounds : list (file * wsignal))
    (pos : Z) : list action * status * Z :=
  match rounds with
  | [] => ([], Waiting, pos)
  | (logf, sig) :: rounds' =>
      let '(tr, err, pos) := readLog e logFile logf pos in
      match err with
      | Some err => ((tr ++ [SendErr err])%list, Returned, pos)
      | None =>
          let '(tr', st, pos') := tail e logFile rounds' pos in
          match sig with
          | WEvent => ((tr ++ tr')%list, st, pos')
          | WError err => ((tr ++ SendErr err :: tr')%list, st, pos')
          end
      end
  end.

(** [Mcwho(logPath, conch, disch, errch)], for the rounds given.
<<
    watcher, err := setupWatcher(path.Join(logPath, "latest.log"))
    if err != nil { errch <- err; return }
    files, err := ioutil.ReadDir(logPath)
    if err != nil { errch <- err; return }
    ... first pass ...
    logFile := path.Join(logPath, "latest.log")
    ... second pass ...
>>
    The deferred [close(conch)] and [watcher.Close()], which run when the
    function returns, are left out of the trace. *)
Definition Mcwho (e : env) (logPath : string) (w : world)
    (rounds : list (file * wsignal)) (pos : Z) : list action * status * Z :=
  match setupWatcher w (Join logPath "latest.log") with
  | (tr, Exit) => (tr, Exited, pos)
  | (tr, Came (Some err)) => ((tr ++ [SendErr err])%list, Returned, pos)
  | (tr, Came None) =>
      match w_readdir w with
      | inl err => ((tr ++ [SendErr err])%list, Returned, pos)
      | inr names =>
          let files := ReadDir names in
          let '(tr1, ret, pos) := backfill e logPath w files pos in
          if ret then ((tr ++ tr1)%list, Returned, pos)
          else
            let logFile := Join logPath "latest.log" in
            let '(tr2, st, pos) := tail e logFile rounds pos in
            ((tr ++ tr1 ++ tr2)%list, st, pos)
      end
  end.

(** ** Reading a trace, and the names of a directory *)

(** The files a trace opens, in order. *)
Definition opened (a : action) : option string :=
  match a with
  | Open path => Some path
  | _ => None
  end.

Definition opens (trace : list action) : list string := omap opened trace.

(** The entries the first pass does not skip. *)
Definition gzNames (files : list string) : list string :=
  filter (λ file, Ext file = gzipext) files.

(** A name as a directory holds it has no slash in it. *)
Definition noSlash (file : string) : bool :=
  forallb (λ c, negb (byte_eqb c slash)) (list_ascii_of_string file).

(** The date in a name, found with [datere] the way [readLog] finds the
    date of the path it is given. *)
Definition embeddedDate (file : string) : option string :=
  matches ← matchFirst datere file; Some (nth 0 matches "").

(** A date written [YYYY-MM-DD], with all its zeros. *)
Definition isDate (d : string) : bool :=
  match list_ascii_of_string d with
  | [y1; y2; y3; y4; h1; m1; m2; h2; d1; d2] =>
      isDigit y1 && isDigit y2 && isDigit y3 && isDigit y4
      && byte_eqb h1 "-"%char && isDigit m1 && isDigit m2
      && byte_eqb h2 "-"%char && isDigit d1 && isDigit d2
  | _ => false
  end.

(** The day such a date stands for, as a number that grows with the
    calendar: year, month and day side by side. *)
Definition dateKey (d : string) : Z :=
  match list_ascii_of_string d with
  | [y1; y2; y3; y4; _; m1; m2; _; d1; d2] =>
      (digitsVal [y1; y2; y3; y4] * 100 + digitsVal [m1; m2]) * 100
      + digitsVal [d1; d2]
  | _ => 0
  end.

(** The name of an archive as the server writes it: it starts with the
    date [datere] finds in it, written in full. *)
Definition startsWithDate (file : string) : Prop :=
  ∃ d rest, embeddedDate file = Some d ∧ isDate d = true ∧ file = d ++ rest.

Definition archiveDay (file : string) : Z :=
  dateKey (default "" (embeddedDate file)).

(** ** Sample inputs *)

(** A file of [n] bytes. *)
Fixpoint blank (n : nat) : string :=
  match n with
  | O => ""
  | S n' => String "x"%char (blank n')
  end.

Definition eof : error := OSError "EOF".

Definition plainFile (bytes : string) : file :=
  File None None None bytes eof (inr "2014-03-04") None.

Definition steveLine : string :=
  "[12:01:15] [Server thread/INFO]: Steve[/127.0.0.1:5000] logged in with entity id 123".

Definition est : env :=
  Env "EST"
      (λ name _, if String.eqb name "EST" then Some (-18000)
                 else if String.eqb name "EDT" then Some (-14400)
                 else None)
      "2014-03-05".

(** The Unix time of 2014-03-02T12:01:15Z. *)
Definition noonUnix : Z := 1393761675.

(** A process in Kathmandu, where the zone has no name but its offset. *)
Definition kathmandu : env :=
  Env "+0545"
      (λ name _, if String.eqb name "+0545" then Some 20700 else None)
      "2014-03-05".

Definition lateLine : string :=
  "[25:00:00] [Server thread/INFO]: Steve lost connection: TextComponent{text='Disconnected'}".

Definition gzFile (bytes : string) : file :=
  File None None None bytes eof (inr "2014-03-04") None.

(** The listing of a directory with two archives whose names start with
    a letter, and one where the names start with the date. *)
Definition lettered : world :=
  World (λ _, None) (inr ["b-2014-01-01.log.gz"; "a-2015-01-01.log.gz"])
        (λ _, gzFile "").

(** A directory whose [latest.log] cannot be watched. *)
Definition unwatched : world :=
  World (λ _, Some (OSError "no such file or directory")) (inr [])
        (λ _, gzFile "").

(** Two archives of one day, the second and the tenth of that day, as the
    server numbers them; Steve logs in at 10:00 in the one and leaves at
    20:00 in the other. *)
Definition morningLine : string :=
  "[10:00:00] [Server thread/INFO]: Steve[/127.0.0.1:5000] logged in with entity id 123".

Definition eveningLine : string :=
  "[20:00:00] [Server thread/INFO]: Steve lost connection: TextComponent{text='Disconnected'}".

Definition sameDay : world :=
  World (λ _, None) (inr ["2014-03-02-2.log.gz"; "2014-03-02-10.log.gz"])
        (λ path,
           if String.eqb path "logs/2014-03-02-2.log.gz"
           then gzFile (morningLine ++ "
")
           else if String.eqb path "logs/2014-03-02-10.log.gz"
           then gzFile (eveningLine ++ "
")
           else gzFile "").

Definition dated : world :=
  World (λ _, None) (inr ["2014-03-02-1.log.gz"; "latest.log"; "2014-03-01-1.log.gz";
                   "notes.txt"])
        (λ _, gzFile "").

(** ** Notions for the further properties *)

(** The user an event carries. *)
Definition eventUser (ev : event) : mcuser :=
  match ev with
  | Conn user => user
  | Disc user => user
  end.

(** The last of the events that carry the name [u], if any. *)
Definition lastEventOf (u : string) (evs : list event) : option event :=
  last (filter (λ ev, name (eventUser ev) = u) evs).

(** The events a trace sends on [conch] and [disch], in order. *)
Definition sentEvent (a : action) : option event :=
  match a with
  | Send ev => Some ev
  | _ => None
  end.

Definition sent (trace : list action) : list event := omap sentEvent trace.

(** The events the read loop finds in [data] for the date [date]. *)
Definition eventsIn (e : env) (date data : string) : list event :=
  omap (extractLine e date) (readStrings data).

(** A text without newline; a line as [ReadString] gives it: such a text
    and the newline after it. *)
Definition noNewline (s : string) : bool :=
  forallb (λ c, negb (byte_eqb c newline)) (list_ascii_of_string s).

Definition isLine (s : string) : Prop :=
  ∃ body, s = body ++ String newline "" ∧ noNewline body = true.

(** A text that stops where a line stops: empty, or ended by a newline. *)
Definition endsLine (s : string) : Prop :=
  s = "" ∨ ∃ front, s = front ++ String newline "".

(** The same file with other contents. *)
Definition setBytes (logf : file) (bytes : string) : file :=
  File (f_open logf) (f_gzip logf) (f_stat logf) bytes (f_readErr logf)
       (f_mtime logf) (f_tell logf).

(** A plain file that reads without failure: it opens, [Stat] and the
    final [Seek] succeed, and the date of its lines is found in the path or
    given by [os.Stat]. *)
Definition plainReadable (e : env) (logfile : string) (logf : file) : Prop :=
  Ext logfile ≠ gzipext
  ∧ f_open logf = None ∧ f_stat logf = None ∧ f_tell logf = None
  ∧ (resolveDate e logfile logf).2 = None.

(** The date [readLog] gives the lines of a file. *)
Definition dateOf (e : env) (logfile : string) (logf : file) : string :=
  (resolveDate e logfile logf).1.

(** The errors a trace sends on [errch], and the error a signal of the
    watcher carries. *)
Definition sentError (a : action) : option error :=
  match a with
  | SendErr err => Some err
  | _ => None
  end.

Definition sentErrs (trace : list action) : list error := omap sentError trace.

Definition signalError (sig : wsignal) : option error :=
  match sig with
  | WError err => Some err
  | WEvent => None
  end.

(** An action other than [log.Fatal]. *)
Definition notFatal (a : action) : Prop :=
  match a with
  | Fatal _ => False
  | _ => True
  end.

(** The text of one player in the display. *)
Definition playerInfo (now : Time) (user : mcuser) : string :=
  name user ++ " on for " ++ (getHowLong now (since user)).1.

(** The state of a match after the bytes [taken]. *)
Fixpoint eatAll (taken : list ascii) (st : mstate) : mstate :=
  match taken with
  | [] => st
  | c :: rest => eatAll rest (eat c st)
  end.

(** What a text must look like for a pattern to match at its start with
    the result [r], read off the pattern item by item. *)
Fixpoint shape (p : regex) (text : string) (st : mstate) (r : list string)
  : Prop :=
  match p with
  | [] => r = rev (caps st)
  | Lit c :: p' =>
      ∃ rest, text = String c rest ∧ shape p' rest (eat c st) r
  | Star cls :: p' =>
      ∃ taken rest,
        text = string_of_list_ascii taken ++ rest
        ∧ forallb cls taken = true
        ∧ shape p' rest (eatAll taken st) r
  | Plus cls :: p' =>
      ∃ d taken rest,
        text = String d (string_of_list_ascii taken ++ rest)
        ∧ cls d = true ∧ forallb cls taken = true
        ∧ shape p' rest (eatAll taken (eat d st)) r
  | GOpen :: p' => shape p' text (openGroup st) r
  | GClose :: p' => shape p' text (closeGroup st) r
  end.

(** All the bytes of a text are in a class. *)
Definition allOf (cls : ascii → bool) (s : string) : bool :=
  forallb cls (list_ascii_of_string s).

(** Numbers written with two and with four digits, and with them a date
    as [Format("2006-01-02")] writes it and a time of day as the server
    writes it. *)
Definition digitChar (n : Z) : ascii := ascii_of_nat (Z.to_nat (48 + n)).

Definition pad2 (n : Z) : string :=
  String (digitChar (n / 10)) (String (digitChar (n mod 10)) "").

Definition pad4 (n : Z) : string :=
  String (digitChar (n / 1000))
    (String (digitChar (n / 100 mod 10)) (pad2 (n mod 100))).

Definition formatDate (year month day : Z) : string :=
  pad4 year ++ "-" ++ pad2 month ++ "-" ++ pad2 day.

Definition formatClock (hour min sec : Z) : string :=
  pad2 hour ++ ":" ++ pad2 min ++ ":" ++ pad2 sec.

(** A gzip file that reads without failure. *)
Definition gzReadable (e : env) (logfile : string) (logf : file) : Prop :=
  Ext logfile = gzipext
  ∧ f_open logf = None ∧ f_gzip logf = None
  ∧ (resolveDate e logfile logf).2 = None.

(** An archive that can be read: the file opens and starts as a gzip
    stream. *)
Definition archiveOpens (logf : file) : Prop :=
  f_open logf = None ∧ f_gzip logf = None.

(** The events sent when the archive [file] of the directory is read;
    the cursor, here 0, plays no part in the reading of an archive. *)
Definition archiveSends (e : env) (logPath : string) (w : world)
    (file : string) : list event :=
  sent (readLog e (Join logPath file) (w_file w (Join logPath file)) 0).1.1.

(* ===================================================================== *)
(** * Part II: properties                                                *)
(* ===================================================================== *)

(** ** The tracker *)

Lemma step_disjoint (st : tables) (ev : event) :
  dom (usersOn st) ## dom (usersOff st) →
  dom (usersOn (step st ev)) ## dom (usersOff (step st ev)).
Proof.
  destruct st as [on off], ev as [[n t]|[n t]]; simpl; intros Hd k;
    rewrite !dom_insert_L, !dom_delete_L;
    rewrite elem_of_union, elem_of_difference, !elem_of_singleton;
    intros Hon Hoff; specialize (Hd k); tauto.
Qed.

Lemma track_disjoint (evs : list event) : ∀ st : tables,
  dom (usersOn st) ## dom (usersOff st) →
  dom (usersOn (track st evs)) ## dom (usersOff (track st evs)).
Proof.
  unfold track. induction evs as [|ev evs IH]; intros st Hd; simpl; [done|].
  apply IH, step_disjoint, Hd.
Qed.

(** C1. Whatever events the tracker receives, starting from the empty
    tables, no user name is a key of both [usersOn] and [usersOff]
    afterwards; a login leaves the user out of [usersOff] and in
    [usersOn], a logout the other way round. *)
Theorem C1_never_in_both_tables (evs : list event) (u : string) :
  ¬ (is_Some (usersOn (track initTables evs) !! u)
     ∧ is_Some (usersOff (track initTables evs) !! u))
  ∧ (∀ st user,
       usersOff (step st (Conn user)) !! name user = None
       ∧ usersOn (step st (Conn user)) !! name user = Some user)
  ∧ (∀ st user,
       usersOn (step st (Disc user)) !! name user = None
       ∧ usersOff (step st (Disc user)) !! name user = Some user).
Proof.
  split; [|split].
  - intros [Hon Hoff].
    apply elem_of_dom in Hon. apply elem_of_dom in Hoff.
    refine (track_disjoint evs initTables _ u Hon Hoff).
    simpl. rewrite dom_empty_L. intros k Hk. by apply not_elem_of_empty in Hk.
  - intros st user. simpl. split.
    + apply lookup_delete_eq.
    + apply lookup_insert_eq.
  - intros st user. simpl. split.
    + apply lookup_delete_eq.
    + apply lookup_insert_eq.
Qed.

(** C9. Two logins of the same user in a row leave one entry for the user
    in [usersOn], the one of the second login: the table is what the
    second login alone would have made of it, it has as many entries as
    after the first login, and the user is not in [usersOff]. *)
Theorem C9_second_login_overwrites (st : tables) (u : string) (t1 t2 : Time) :
  let st1 := step st (Conn (Mcuser u t1)) in
  let st2 := step st1 (Conn (Mcuser u t2)) in
  usersOn st2 !! u = Some (Mcuser u t2)
  ∧ usersOn st2 = <[u := Mcuser u t2]> (usersOn st)
  ∧ size (usersOn st2) = size (usersOn st1)
  ∧ usersOff st2 !! u = None.
Proof.
  simpl. split; [|split; [|split]].
  - apply lookup_insert_eq.
  - apply insert_insert_eq.
  - rewrite insert_insert_eq.
    rewrite <- (insert_delete_eq (usersOn st) u (Mcuser u t2)).
    rewrite <- (insert_delete_eq (usersOn st) u (Mcuser u t1)).
    rewrite !map_size_insert_None by apply lookup_delete_eq. done.
  - apply lookup_delete_eq.
Qed.

(** ** The cursor of the live file *)

Lemma getLogReader_plain (logfile : string) (logf : file) (pos : Z) :
  Ext logfile ≠ gzipext →
  f_stat logf = None →
  let start := if fileSize logf <? pos then 0 else pos in
  getLogReader logfile logf pos =
    ([Stdout ("Starting read at offset " ++ itoa start ++ "
")],
     inr (Reader start (dropBytes (Z.to_nat start) (f_bytes logf))
                 (f_readErr logf)),
     start).
Proof.
  intros Hext Hstat. unfold getLogReader.
  rewrite decide_False by done. by rewrite Hstat.
Qed.

(** C8. Reading a plain file whose size has fallen below the stored
    offset sets the offset to 0, and the reader starts at the first byte
    of the file; with a size of at least the offset, the offset stays and
    the reader starts there. *)
Theorem C8_truncation_resets_cursor (logfile : string) (logf : file) (pos : Z) :
  Ext logfile ≠ gzipext →
  f_stat logf = None →
  (fileSize logf < pos →
     ∃ out rdr, getLogReader logfile logf pos = (out, inr rdr, 0)
                ∧ r_off rdr = 0 ∧ r_data rdr = f_bytes logf)
  ∧ (pos <= fileSize logf →
     ∃ out rdr, getLogReader logfile logf pos = (out, inr rdr, pos)
                ∧ r_off rdr = pos
                ∧ r_data rdr = dropBytes (Z.to_nat pos) (f_bytes logf)).
Proof.
  intros Hext Hstat.
  rewrite (getLogReader_plain logfile logf pos Hext Hstat). split.
  - intros Hlt. apply Z.ltb_lt in Hlt. rewrite Hlt. eauto.
  - intros Hle. apply Z.ltb_ge in Hle. rewrite Hle. eauto.
Qed.

Lemma C8_truncation_resets_cursor_witness :
  (∃ out rdr,
     getLogReader "logs/latest.log" (plainFile (blank 200)) 500
       = (out, inr rdr, 0)
     ∧ r_off rdr = 0 ∧ r_data rdr = blank 200)
  ∧ (∃ out rdr,
     getLogReader "logs/latest.log" (plainFile (blank 200)) 150
       = (out, inr rdr, 150)
     ∧ r_off rdr = 150 ∧ r_data rdr = blank 50).
Proof.
  split.
  - apply (C8_truncation_resets_cursor "logs/latest.log"
             (plainFile (blank 200)) 500);
      [vm_compute; discriminate | reflexivity | vm_compute; reflexivity].
  - apply (C8_truncation_resets_cursor "logs/latest.log"
             (plainFile (blank 200)) 150);
      [vm_compute; discriminate | reflexivity | vm_compute; discriminate].
Defined.

(** ** The duration text *)

Lemma Sub_add (ts d : Z) :
  minInt64 <= d <= maxInt64 → Sub (ts + d) ts = d.
Proof.
  intros [Hlo Hhi]. unfold Sub.
  replace (ts + d - ts) with d by lia.
  destruct (Z.ltb_spec d minInt64); [lia|].
  destruct (Z.ltb_spec maxInt64 d); [lia|]. done.
Qed.

Lemma getHowLong_after (ts d : Z) :
  minInt64 <= d <= maxInt64 → getHowLong (ts + d) ts = getHowLong d 0.
Proof.
  intros Hd. unfold getHowLong. rewrite (Sub_add ts d Hd).
  assert (Sub d 0 = d) as ->; [|done].
  rewrite <- (Sub_add 0 d Hd) at 2. by destruct d.
Qed.

(** The four durations of the specification come out as it says. *)
Example getHowLong_45s (ts : Time) :
  getHowLong (ts + 45 * Second) ts = ("45s", None).
Proof. rewrite getHowLong_after by (vm_compute; split; discriminate). by vm_compute. Qed.

Example getHowLong_125s (ts : Time) :
  getHowLong (ts + 125 * Second) ts = ("2m", None).
Proof. rewrite getHowLong_after by (vm_compute; split; discriminate). by vm_compute. Qed.

Example getHowLong_2h5m (ts : Time) :
  getHowLong (ts + (2 * Hour + 5 * Minute)) ts = ("2h 5m", None).
Proof. rewrite getHowLong_after by (vm_compute; split; discriminate). by vm_compute. Qed.

Example getHowLong_1d3m (ts : Time) :
  getHowLong (ts + (24 * Hour + 3 * Minute)) ts = ("1d 3m", None).
Proof. rewrite getHowLong_after by (vm_compute; split; discriminate). by vm_compute. Qed.

Lemma getDisplay_one (now : Time) (user : mcuser) (offs : list mcuser) :
  getDisplay now [user] offs
  = "1 player: " ++ name user ++ " on for " ++ (getHowLong now (since user)).1.
Proof.
  unfold getDisplay. cbn [fmap list_fmap length strings_Join].
  by destruct (getHowLong now (since user)) as [howLong err].
Qed.

(** C6. Two days and three hours after [ts], and one hour after [ts],
    the text ends in a space: ["2d 3h "] and ["1h "], not ["2d 3h"] and
    ["1h"], and the display of one user on for an hour is
    ["1 player: a on for 1h "]. *)
Theorem C6_trailing_space_without_minutes (ts : Time) :
  getHowLong (ts + (2 * 24 * Hour + 3 * Hour)) ts = ("2d 3h ", None)
  ∧ getHowLong (ts + 1 * Hour) ts = ("1h ", None)
  ∧ getDisplay (ts + 1 * Hour) [Mcuser "a" ts] [] = "1 player: a on for 1h ".
Proof.
  split; [|split].
  - rewrite getHowLong_after by (vm_compute; split; discriminate). by vm_compute.
  - rewrite getHowLong_after by (vm_compute; split; discriminate). by vm_compute.
  - rewrite getDisplay_one. cbn [since name].
    rewrite getHowLong_after by (vm_compute; split; discriminate).
    by vm_compute.
Qed.

(** ** Failure to set up the watch *)

(** C3. When the watch on [latest.log] cannot be set up, [setupWatcher]
    ends the process with [log.Fatal]: nothing is sent on the error
    channel and [Mcwho] does not return. *)
Theorem C3_watch_failure_bypasses_errch (e : env) (logPath : string)
    (w : world) (err : error) (rounds : list (file * wsignal)) (pos : Z) :
  w_watch w (Join logPath "latest.log") = Some err →
  Mcwho e logPath w rounds pos = ([Fatal err], Exited, pos)
  ∧ ∀ err', SendErr err' ∉ (Mcwho e logPath w rounds pos).1.1.
Proof.
  intros Hwatch.
  assert (Hrun : Mcwho e logPath w rounds pos = ([Fatal err], Exited, pos)).
  { unfold Mcwho, setupWatcher. by rewrite Hwatch. }
  split; [done|]. rewrite Hrun. cbn [fst].
  intros err' Hin. apply list_elem_of_singleton in Hin. discriminate.
Qed.

Lemma C3_watch_failure_bypasses_errch_witness :
  Mcwho est "logs" unwatched [(plainFile "", WEvent)] 0
  = ([Fatal (OSError "no such file or directory")], Exited, 0)
  ∧ ∀ err', SendErr err' ∉ (Mcwho est "logs" unwatched [(plainFile "", WEvent)] 0).1.1.
Proof.
  apply (C3_watch_failure_bypasses_errch est "logs" unwatched). reflexivity.
Defined.

(** An error of the watcher while the live file is tailed is sent on the
    error channel, but the [break] after it leaves the [select] only: the
    goroutine goes on to read the file again. *)
Lemma watcher_error_does_not_end_tail (e : env) (logFile : string)
    (logf : file) (err : error) (rounds : list (file * wsignal)) (pos : Z) :
  (readLog e logFile logf pos).1.2 = None →
  (tail e logFile ((logf, WError err) :: rounds) pos).1.1
  = ((readLog e logFile logf pos).1.1 ++ SendErr err
      :: (tail e logFile rounds (readLog e logFile logf pos).2).1.1)%list
  ∧ (tail e logFile ((logf, WError err) :: rounds) pos).1.2
    = (tail e logFile rounds (readLog e logFile logf pos).2).1.2.
Proof.
  intros Hok. cbn [tail].
  destruct (readLog e logFile logf pos) as [[tr err'] pos1].
  cbn [fst snd] in *. subst err'.
  by destruct (tail e logFile rounds pos1) as [[tr' st] pos2].
Qed.

(** X13. An error of the reader in the middle of a file, such as a damaged
    gzip stream, ends the read loop like the end of the file does: the
    result of [readLog] does not depend on it. *)
Lemma read_error_swallowed (e : env) (logfile : string) (logf : file)
    (err : error) (pos : Z) :
  readLog e logfile
    (File (f_open logf) (f_gzip logf) (f_stat logf) (f_bytes logf) err
          (f_mtime logf) (f_tell logf)) pos
  = readLog e logfile logf pos.
Proof.
  unfold readLog, getLogReader, resolveDate, readLoop, fileSize. cbn [f_open f_gzip f_stat f_bytes f_readErr f_mtime f_tell].
  destruct (f_open logf); [done|].
  destruct (decide (Ext logfile = gzipext)).
  - destruct (f_gzip logf); [done|].
    destruct (matchFirst datere logfile); [done|].
    by destruct (f_mtime logf).
  - destruct (f_stat logf); [done|].
    destruct (matchFirst datere logfile); cbn [r_data r_off r_end].
    + by destruct (f_tell logf).
    + destruct (f_mtime logf); by destruct (f_tell logf).
Qed.

(** Whenever [Mcwho] returns, the last thing it did was to send an error
    on the error channel. *)
Lemma backfill_returns_after_SendErr (e : env) (logPath : string) (w : world)
    (files : list string) : ∀ pos,
  (backfill e logPath w files pos).1.2 = true →
  ∃ tr err, (backfill e logPath w files pos).1.1 = (tr ++ [SendErr err])%list.
Proof.
  induction files as [|file files IH]; intros pos; [done|]. cbn [backfill].
  destruct (decide (Ext file ≠ gzipext)); [apply IH|].
  destruct (readLog e (Join logPath file) (w_file w (Join logPath file)) pos)
    as [[tr err] pos1].
  destruct err as [err|].
  - intros _. cbn [fst]. eexists ((_ :: tr) ++ [_])%list, err.
    by rewrite <- app_assoc.
  - specialize (IH pos1).
    destruct (backfill e logPath w files pos1) as [[tr' ret] pos2].
    cbn [fst snd] in *. intros Hret. destruct (IH Hret) as (tr0 & err & ->).
    exists (Stdout ("reading log " ++ Join logPath file ++ "
") :: tr ++ tr0)%list, err.
    by rewrite <- !app_comm_cons, <- app_assoc.
Qed.

Lemma tail_returns_after_SendErr (e : env) (logFile : string)
    (rounds : list (file * wsignal)) : ∀ pos,
  (tail e logFile rounds pos).1.2 = Returned →
  ∃ tr err, (tail e logFile rounds pos).1.1 = (tr ++ [SendErr err])%list.
Proof.
  induction rounds as [|[logf sig] rounds IH]; intros pos; [done|]. cbn [tail].
  destruct (readLog e logFile logf pos) as [[tr err] pos1].
  destruct err as [err|]; [intros _; by exists tr, err|].
  specialize (IH pos1).
  destruct (tail e logFile rounds pos1) as [[tr' st] pos2]. cbn [fst snd] in IH.
  destruct sig as [|err]; cbn [fst snd]; intros Hret;
    destruct (IH Hret) as (tr0 & err0 & ->).
  - exists (tr ++ tr0)%list, err0. by rewrite app_assoc.
  - exists (tr ++ SendErr err :: tr0)%list, err0.
    by rewrite <- app_assoc, <- app_comm_cons.
Qed.

Lemma Mcwho_returns_after_SendErr (e : env) (logPath : string) (w : world)
    (rounds : list (file * wsignal)) (pos : Z) :
  (Mcwho e logPath w rounds pos).1.2 = Returned →
  ∃ tr err, (Mcwho e logPath w rounds pos).1.1 = (tr ++ [SendErr err])%list.
Proof.
  unfold Mcwho, setupWatcher.
  destruct (w_watch w (Join logPath "latest.log")); [done|].
  destruct (w_readdir w) as [err|names]; [intros _; by exists [], err|].
  pose proof (backfill_returns_after_SendErr e logPath w (ReadDir names) pos) as Hb.
  destruct (backfill e logPath w (ReadDir names) pos) as [[tr1 ret] pos1].
  cbn [fst snd] in Hb. destruct ret.
  - intros _. destruct (Hb eq_refl) as (tr & err & ->). by exists tr, err.
  - pose proof (tail_returns_after_SendErr e (Join logPath "latest.log") rounds pos1) as Ht.
    destruct (tail e (Join logPath "latest.log") rounds pos1) as [[tr2 st] pos2].
    cbn [fst snd] in *. intros Hret. destruct (Ht Hret) as (tr & err & ->).
    exists (tr1 ++ tr)%list, err. rewrite app_nil_l. apply app_assoc.
Qed.

(** ** The extractor *)

Lemma cutspace_token (z : string) : zoneToken z = true → cutspace z = z.
Proof.
  destruct z as [|c z]; [done|]. unfold zoneToken. simpl.
  intros H. apply andb_prop in H as [H _]. apply negb_true_iff in H. by rewrite H.
Qed.

Lemma parseFields_local (e : env) (value z : string) (c : civil) :
  zoneToken z = true →
  parseClock value = Some (c, String " "%char z) →
  1 <= c_day c <= daysIn (c_month c) (c_year c) →
  parseFields e value
  = (offset ← zoneAccepted e z (unixOf c);
     Some (Date (c_year c) (c_month c) (c_day c) (c_hour c) (c_min c)
                (c_sec c) (c_nsec c) offset)).
Proof.
  intros Hz Hc Hday. unfold parseFields, zoneAccepted. rewrite Hc.
  cbn [mbind option_bind].
  change (skipSpace (String " "%char z)) with (Some (cutspace z)).
  rewrite (cutspace_token _ Hz). cbn [mbind option_bind].
  destruct (parseZone z) as [[zt rest]|]; [|done]. cbn [mbind option_bind].
  rewrite (option_guard_True (1 <= c_day c ∧ _)) by done.
  by case_guard.
Qed.

Lemma parseSince_noon (e : env) :
  zoneToken (zone e) = true →
  parseSince e "2014-03-02 12:01:15"
  = match zoneAccepted e (zone e) noonUnix with
    | Some offset => (Date 2014 3 2 12 1 15 0 offset, None)
    | None => (zeroTime, Some (ParseError ("2014-03-02 12:01:15 " ++ zone e)))
    end.
Proof.
  intros Hz. unfold parseSince, time_Parse.
  rewrite (parseFields_local e _ (zone e) (Civil 2014 3 2 12 1 15 0) Hz).
  - change (unixOf (Civil 2014 3 2 12 1 15 0)) with noonUnix.
    by destruct (zoneAccepted e (zone e) noonUnix).
  - generalize (zone e). intros z. vm_compute. reflexivity.
  - vm_compute. split; discriminate.
Qed.

Lemma Date_unix (year month day hour min sec offset : Z) :
  Date year month day hour min sec 0 offset
  = (unixToInternal
     + (unixOf (Civil year month day hour min sec 0) - offset)) * 1000000000.
Proof. unfold Date, unixOf, unixToInternal. cbn [c_year c_month c_day c_hour c_min c_sec]. lia. Qed.




Lemma extractLine_matchLine (e : env) (date line : string) :
  extractLine e date line
  = '(k, matches) ← matchLine line;
    Some (eventOf k (Mcuser (nth 1 matches "")
                            (parseSince e (date ++ " " ++ nth 0 matches "")).1)).
Proof.
  unfold extractLine, matchLine.
  destruct (matchAnchored logonre line) as [m|]; cbn [mbind option_bind].
  - by destruct (parseSince e _).
  - destruct (matchAnchored logoutre line) as [m|]; cbn [mbind option_bind];
      [by destruct (parseSince e _)|done].
Qed.

Lemma parseSince_error_zero (e : env) (value : string) :
  (parseSince e value).2 ≠ None → (parseSince e value).1 = zeroTime.
Proof.
  unfold parseSince, time_Parse. by destruct (parseFields e _).
Qed.

(** The error [readLog] returns comes from the system calls alone: when
    they succeed, it is [nil], whatever the file holds. *)
Lemma readLog_no_error (e : env) (logfile : string) (logf : file) (pos : Z) :
  f_open logf = None → f_gzip logf = None → f_stat logf = None →
  f_tell logf = None →
  (readLog e logfile logf pos).1.2 = None.
Proof.
  intros Hopen Hgz Hstat Htell. unfold readLog, getLogReader.
  rewrite Hopen, Hgz, Hstat, Htell.
  destruct (decide (Ext logfile = gzipext)) as [Hext|Hext].
  - destruct (resolveDate e logfile logf) as [date err].
    destruct (readLoop e date _ err) as [[sends taken] err'].
    by rewrite decide_False by (intros Hne; done).
  - destruct (resolveDate e logfile logf) as [date err].
    destruct (readLoop e date _ err) as [[sends taken] err'].
    by rewrite decide_True by done.
Qed.

(** The claim C2 as stated fails: a login line with the time 25:00:00
    does not parse, and the event is sent all the same. *)
Lemma C2_unparsable_time_not_dropped :
  ¬ (∀ (e : env) (date line : string) (k : kind) (matches : list string),
       matchLine line = Some (k, matches) →
       (parseSince e (date ++ " " ++ nth 0 matches "")).2 ≠ None →
       extractLine e date line = None).
Proof.
  intros Hclaim.
  specialize (Hclaim est "2014-03-02"
    "[25:00:00] [Server thread/INFO]: Steve[/127.0.0.1:5000] logged in with entity id 123"
    Login ["25:00:00"; "Steve"]).
  assert (Hnone : extractLine est "2014-03-02"
    "[25:00:00] [Server thread/INFO]: Steve[/127.0.0.1:5000] logged in with entity id 123"
    = None).
  { apply Hclaim; [vm_compute; reflexivity | vm_compute; discriminate]. }
  vm_compute in Hnone. discriminate.
Qed.

(** C2, amended. A line that matches the login or the logout pattern and
    whose date and time do not parse still gives its event, with the zero
    time as instant; the lines before and after it in the file give their
    events as usual, and the error of [readLog] is [nil] whenever the
    system calls succeed. *)
Theorem C2_unparsable_time_sends_zero_time (e : env) (date line : string)
    (k : kind) (matches : list string) :
  matchLine line = Some (k, matches) →
  (parseSince e (date ++ " " ++ nth 0 matches "")).2 ≠ None →
  let ev := eventOf k (Mcuser (nth 1 matches "") zeroTime) in
  extractLine e date line = Some ev
  ∧ (∀ rdr before after,
       readStrings (r_data rdr) = (before ++ line :: after)%list →
       (readLoop e date rdr None).1.1
       = ((Send <$> omap (extractLine e date) before)
          ++ Send ev :: (Send <$> omap (extractLine e date) after))%list)
  ∧ (∀ logfile logf pos,
       f_open logf = None → f_gzip logf = None → f_stat logf = None →
       f_tell logf = None →
       (readLog e logfile logf pos).1.2 = None).
Proof.
  intros Hm Hbad ev.
  assert (Hev : extractLine e date line = Some ev).
  { rewrite extractLine_matchLine, Hm. cbn [mbind option_bind].
    by rewrite (parseSince_error_zero e _ Hbad). }
  split; [done|]. split.
  - intros rdr before after Hlines. unfold readLoop. cbn [fst].
    rewrite Hlines, omap_app. cbn [omap list_omap]. rewrite Hev.
    by rewrite fmap_app.
  - intros logfile logf pos. apply readLog_no_error.
Qed.

Lemma C2_unparsable_time_sends_zero_time_witness :
  extractLine est "2014-03-02" lateLine = Some (Disc (Mcuser "Steve" zeroTime)).
Proof.
  apply (C2_unparsable_time_sends_zero_time est "2014-03-02" lateLine
           Logout ["25:00:00"; "Steve"]).
  - vm_compute. reflexivity.
  - vm_compute. discriminate.
Defined.

(** ** The display without players *)

Lemma lastSeen_fold (offs : list mcuser) : ∀ acc : mcuser,
  let last :=
    foldl (λ lastUser user,
             if After (since user) (since lastUser) then user else lastUser)
          acc offs in
  since acc <= since last
  ∧ (∀ v, v ∈ offs → since v <= since last)
  ∧ (last = acc ∨ (last ∈ offs ∧ since acc < since last)).
Proof.
  unfold After. cbv zeta.
  induction offs as [|user offs IH]; intros acc; cbn [foldl].
  - split; [lia|]. split; [|by left]. intros v Hv. by apply elem_of_nil in Hv.
  - destruct (Z.ltb_spec (since acc) (since user)) as [Hlt|Hge].
    + destruct (IH user) as (Hle & Hall & Hlast). split; [lia|]. split.
      * intros v Hv. apply elem_of_cons in Hv as [->|Hv]; [exact Hle|by apply Hall].
      * right. destruct Hlast as [Heq|[Hin Hlt']].
        -- rewrite Heq. split; [apply list_elem_of_here|exact Hlt].
        -- split; [by apply list_elem_of_further|lia].
    + destruct (IH acc) as (Hle & Hall & Hlast). split; [exact Hle|]. split.
      * intros v Hv. apply elem_of_cons in Hv as [->|Hv]; [lia|by apply Hall].
      * destruct Hlast as [Heq|[Hin Hlt']]; [by left|].
        right. split; [by apply list_elem_of_further|exact Hlt'].
Qed.

Lemma lastSeen_spec (offs : list mcuser) :
  (∀ v, v ∈ offs → since v <= since (lastSeen offs))
  ∧ (lastSeen offs = zeroUser
     ∨ (lastSeen offs ∈ offs ∧ 0 < since (lastSeen offs))).
Proof.
  destruct (lastSeen_fold offs zeroUser) as (_ & Hall & Hlast). by split.
Qed.

Lemma append_nil_r (s : string) : s ++ "" = s.
Proof.
  induction s as [|c s IH]; [done|].
  change (String c s ++ "") with (String c (s ++ "")). by rewrite IH.
Qed.

Lemma getDisplay_nobody_on (now : Time) (offs : list mcuser) :
  getDisplay now [] offs
  = if IsZero (since (lastSeen offs)) then "No players for ever (nobody)"
    else "No players for " ++ (getHowLong now (since (lastSeen offs))).1
         ++ " (" ++ name (lastSeen offs) ++ ")".
Proof.
  unfold getDisplay. cbn [fmap list_fmap length strings_Join].
  change (Z.of_nat 0 <? 1) with true. cbv iota. rewrite append_nil_r.
  destruct (getHowLong now (since (lastSeen offs))) as [howLong err].
  by destruct (IsZero (since (lastSeen offs))).
Qed.

Lemma rangeOf_elem (m : userList) (l : list mcuser) (v : mcuser) :
  rangeOf m l → (v ∈ l ↔ ∃ k, m !! k = Some v).
Proof.
  unfold rangeOf. intros ->. rewrite list_elem_of_fmap. split.
  - intros [[k v'] [-> Hin]]. exists k. by apply elem_of_map_to_list in Hin.
  - intros [k Hk]. exists (k, v). split; [done|]. by apply elem_of_map_to_list.
Qed.

(** The claim C7 as stated fails: with nobody on and an offline table
    that holds one record, of a user last seen at the zero time, the
    display names nobody. *)
Lemma C7_zero_time_record_is_nobody :
  ¬ (∀ (now : Time) (off : userList) (offs : list mcuser),
       off ≠ ∅ → rangeOf off offs →
       ∃ k w, off !! k = Some w
              ∧ (∀ k' v, off !! k' = Some v → since v <= since w)
              ∧ getDisplay now [] offs
                = "No players for " ++ (getHowLong now (since w)).1
                  ++ " (" ++ name w ++ ")").
Proof.
  intros Hclaim.
  destruct (Hclaim (Date 2014 3 2 12 1 15 0 0)
              {["Steve" := Mcuser "Steve" zeroTime]}
              [Mcuser "Steve" zeroTime]) as (k & w & Hk & _ & Hshow).
  - intros Hempty.
    assert (Hl : ({["Steve" := Mcuser "Steve" zeroTime]} : userList) !! "Steve"
                 = Some (Mcuser "Steve" zeroTime)) by apply lookup_singleton_eq.
    rewrite Hempty in Hl. by rewrite lookup_empty in Hl.
  - unfold rangeOf. by rewrite map_to_list_singleton.
  - apply lookup_singleton_Some in Hk as [_ <-].
    vm_compute in Hshow. discriminate.
Qed.

(** C7, amended. With nobody on: when some offline record is later than
    the zero time, the display is ["No players for <duration> (<name>)"]
    for an offline record with the greatest [since]; when none is (the
    table is empty, or all its records carry the zero time or an earlier
    one), the display is ["No players for ever (nobody)"]. *)
Theorem C7_no_players_display (now : Time) (on off : userList)
    (ons offs : list mcuser) :
  on = ∅ → rangeOf on ons → rangeOf off offs →
  ((∃ k u, off !! k = Some u ∧ After (since u) zeroTime = true) →
     ∃ k w, off !! k = Some w
            ∧ (∀ k' v, off !! k' = Some v → since v <= since w)
            ∧ getDisplay now ons offs
              = "No players for " ++ (getHowLong now (since w)).1
                ++ " (" ++ name w ++ ")")
  ∧ ((∀ k u, off !! k = Some u → After (since u) zeroTime = false) →
     getDisplay now ons offs = "No players for ever (nobody)")
  ∧ (off = ∅ → getDisplay now ons offs = "No players for ever (nobody)").
Proof.
  intros -> Hons Hoffs.
  assert (ons = []) as ->.
  { unfold rangeOf in Hons. rewrite map_to_list_empty in Hons.
    by apply Permutation_nil_r in Hons. }
  rewrite getDisplay_nobody_on.
  destruct (lastSeen_spec offs) as [Hall Hlast].
  assert (Hnone : (∀ k u, off !! k = Some u → After (since u) zeroTime = false) →
                  (if IsZero (since (lastSeen offs))
                   then "No players for ever (nobody)"
                   else "No players for " ++ (getHowLong now (since (lastSeen offs))).1
                        ++ " (" ++ name (lastSeen offs) ++ ")")
                  = "No players for ever (nobody)").
  { intros Hold. destruct Hlast as [->|[Hin Hpos]]; [done|].
    apply (rangeOf_elem off offs _ Hoffs) in Hin as [k Hk].
    specialize (Hold k _ Hk). unfold After, zeroTime in Hold.
    apply Z.ltb_ge in Hold. lia. }
  split; [|split; [done|]].
  - intros (k & u & Hk & Hafter). unfold After, zeroTime in Hafter.
    apply Z.ltb_lt in Hafter.
    assert (Hu : u ∈ offs) by (apply (rangeOf_elem off offs u Hoffs); eauto).
    specialize (Hall u Hu) as Hle.
    destruct Hlast as [Hz|[Hin Hpos]].
    { rewrite Hz in Hle. simpl in Hle. unfold zeroTime in Hle. lia. }
    apply (rangeOf_elem off offs _ Hoffs) in Hin as [kw Hkw].
    exists kw, (lastSeen offs). split; [done|]. split.
    + intros k' v Hv. apply Hall. apply (rangeOf_elem off offs v Hoffs). eauto.
    + unfold IsZero. destruct (Z.eqb_spec (since (lastSeen offs)) 0); [lia|done].
  - intros ->. apply Hnone. intros k u Hk. by rewrite lookup_empty in Hk.
Qed.

Lemma C7_no_players_display_witness :
  ∃ k w, ({["Steve" := Mcuser "Steve" 5]} : userList) !! k = Some w
         ∧ (∀ k' v, ({["Steve" := Mcuser "Steve" 5]} : userList) !! k' = Some v →
                    since v <= since w)
         ∧ getDisplay (5 + 125 * Second) [] [Mcuser "Steve" 5]
           = "No players for " ++ (getHowLong (5 + 125 * Second) (since w)).1
             ++ " (" ++ name w ++ ")".
Proof.
  apply (C7_no_players_display (5 + 125 * Second) ∅
           {["Steve" := Mcuser "Steve" 5]} [] [Mcuser "Steve" 5]).
  - reflexivity.
  - unfold rangeOf. rewrite map_to_list_empty. reflexivity.
  - unfold rangeOf. rewrite map_to_list_singleton. reflexivity.
  - exists "Steve", (Mcuser "Steve" 5). split; [apply lookup_singleton_eq|reflexivity].
Defined.

(** ** The files [Mcwho] opens *)

Lemma opens_app (tr1 tr2 : list action) :
  opens (tr1 ++ tr2) = (opens tr1 ++ opens tr2)%list.
Proof. apply omap_app. Qed.

Lemma opens_cons (a : action) (tr : list action) :
  opens (a :: tr) = (option_list (opened a) ++ opens tr)%list.
Proof. unfold opens. cbn [omap list_omap]. by destruct (opened a). Qed.

Lemma opens_sends (evs : list event) : opens (Send <$> evs) = [].
Proof. induction evs as [|ev evs IH]; [done|]. exact IH. Qed.

Lemma sent_sends (evs : list event) : sent (Send <$> evs) = evs.
Proof. induction evs as [|ev evs IH]; [done|]. cbn. f_equal. exact IH. Qed.

Lemma sent_app (tr1 tr2 : list action) :
  sent (tr1 ++ tr2) = (sent tr1 ++ sent tr2)%list.
Proof. apply omap_app. Qed.

Lemma sent_cons (a : action) (tr : list action) :
  sent (a :: tr) = (option_list (sentEvent a) ++ sent tr)%list.
Proof. unfold sent. cbn [omap list_omap]. by destruct (sentEvent a). Qed.

(** An archive: the gzip reader on the whole stream, the cursor left as
    it is, and no error once the reader is there. *)
Lemma readLog_gz (e : env) (logfile : string) (logf : file) (pos : Z) :
  Ext logfile = gzipext → archiveOpens logf →
  readLog e logfile logf pos
  = ((Open logfile
      :: (readLoop e (resolveDate e logfile logf).1
            (Reader 0 (f_bytes logf) (f_readErr logf))
            (resolveDate e logfile logf).2).1.1)%list,
     None, pos).
Proof.
  intros Hext [Hopen Hgz]. unfold readLog, getLogReader. rewrite Hopen, Hgz.
  rewrite decide_True by done.
  destruct (resolveDate e logfile logf) as [date err]. cbn [fst snd].
  destruct (readLoop e date _ err) as [[sends taken] err'].
  by rewrite decide_False by (intros Hne; done).
Qed.

Lemma readLog_gz_cursor (e : env) (logfile : string) (logf : file) (pos : Z) :
  Ext logfile = gzipext →
  (readLog e logfile logf pos).1 = (readLog e logfile logf 0).1
  ∧ (readLog e logfile logf pos).2 = pos.
Proof.
  intros Hext. unfold readLog, getLogReader. destruct (f_open logf); [done|].
  rewrite !decide_True by done. destruct (f_gzip logf); [done|].
  destruct (resolveDate e logfile logf) as [date err].
  destruct (readLoop e date _ err) as [[sends taken] err'].
  by rewrite !decide_False by (intros Hne; done).
Qed.

Lemma sent_readLog_gz (e : env) (logfile : string) (logf : file) (pos : Z) :
  Ext logfile = gzipext → archiveOpens logf →
  (resolveDate e logfile logf).2 = None →
  sent (readLog e logfile logf pos).1.1
  = eventsIn e (dateOf e logfile logf) (f_bytes logf).
Proof.
  intros Hext Hok Hdate. rewrite (readLog_gz e logfile logf pos Hext Hok).
  cbn [fst snd]. rewrite Hdate. unfold readLoop, dateOf. cbn [fst r_data].
  rewrite sent_cons. cbn [sentEvent option_list app]. apply sent_sends.
Qed.

Lemma readLog_opens (e : env) (logfile : string) (logf : file) (pos : Z) :
  opens (readLog e logfile logf pos).1.1 = [logfile].
Proof.
  unfold readLog. destruct (f_open logf); [done|].
  assert (Hout : opens (getLogReader logfile logf pos).1.1 = []).
  { unfold getLogReader. destruct (decide (Ext logfile = gzipext)).
    - by destruct (f_gzip logf).
    - by destruct (f_stat logf). }
  destruct (getLogReader logfile logf pos) as [[out [err|rdr]] pos'];
    cbn [fst] in Hout.
  - cbn [fst]. by rewrite opens_cons, Hout.
  - destruct (resolveDate e logfile logf) as [date err].
    assert (Hsends : opens (readLoop e date rdr err).1.1 = []).
    { unfold readLoop. destruct err; [done|]. apply opens_sends. }
    destruct (readLoop e date rdr err) as [[sends taken] err'].
    cbn [fst] in Hsends.
    assert (opens (Open logfile :: out ++ sends) = [logfile])
      by (by rewrite opens_cons, opens_app, Hout, Hsends).
    destruct (decide (Ext logfile ≠ gzipext)); [|done].
    by destruct (f_tell logf).
Qed.

Lemma gzNames_cons (file : string) (files : list string) :
  gzNames (file :: files)
  = if decide (Ext file = gzipext) then file :: gzNames files
    else gzNames files.
Proof. unfold gzNames. by rewrite filter_cons. Qed.

(** The first pass opens the [.gz] entries in the order of the listing,
    up to the first that fails; entries of another kind leave no trace. *)
Lemma backfill_opens (e : env) (logPath : string) (w : world)
    (files : list string) : ∀ pos,
  ∃ k, opens (backfill e logPath w files pos).1.1
       = Join logPath <$> take k (gzNames files)
     ∧ ((backfill e logPath w files pos).1.2 = false →
        k = length (gzNames files)).
Proof.
  induction files as [|file files IH]; intros pos.
  - exists 0%nat. done.
  - cbn [backfill]. rewrite gzNames_cons.
    destruct (decide (Ext file = gzipext)) as [Hgz|Hgz].
    + rewrite decide_False by (intros Hne; done).
      pose proof (readLog_opens e (Join logPath file)
                    (w_file w (Join logPath file)) pos) as Hopen.
      destruct (readLog e (Join logPath file) (w_file w (Join logPath file)) pos)
        as [[tr err] pos1]. cbn [fst] in Hopen.
      destruct err as [err|].
      * exists 1%nat. cbn [fst snd]. split; [|done].
        rewrite opens_app, !opens_cons, Hopen. cbn [take]. by destruct (gzNames files).
      * destruct (IH pos1) as (k & Hk & Hall).
        destruct (backfill e logPath w files pos1) as [[tr' ret] pos2].
        cbn [fst snd] in *. exists (S k). split.
        -- by rewrite opens_app, opens_cons, Hopen, Hk.
        -- intros Hret. cbn [length]. by rewrite (Hall Hret).
    + rewrite decide_True by done. apply IH.
Qed.

(** The second pass opens the live file and nothing else. *)
Lemma tail_opens (e : env) (logFile : string)
    (rounds : list (file * wsignal)) : ∀ pos,
  ∃ n, opens (tail e logFile rounds pos).1.1 = replicate n logFile.
Proof.
  induction rounds as [|[logf sig] rounds IH]; intros pos.
  - by exists 0%nat.
  - cbn [tail].
    pose proof (readLog_opens e logFile logf pos) as Hopen.
    destruct (readLog e logFile logf pos) as [[tr err] pos1]. cbn [fst] in Hopen.
    destruct err as [err|].
    + exists 1%nat. cbn [fst]. by rewrite opens_app, Hopen.
    + destruct (IH pos1) as [n Hn].
      destruct (tail e logFile rounds pos1) as [[tr' st] pos2]. cbn [fst] in Hn.
      exists (S n). destruct sig as [|err]; cbn [fst].
      * by rewrite opens_app, Hopen, Hn.
      * by rewrite opens_app, opens_cons, Hopen, Hn.
Qed.

(** All in all: [.gz] entries in the order of the sorted listing, then
    the live file; and the live file only after every [.gz] entry. *)
Lemma Mcwho_opens (e : env) (logPath : string) (w : world)
    (names : list string) (rounds : list (file * wsignal)) (pos : Z) :
  w_readdir w = inr names →
  ∃ k n, opens (Mcwho e logPath w rounds pos).1.1
         = ((Join logPath <$> take k (gzNames (ReadDir names)))
            ++ replicate n (Join logPath "latest.log"))%list
       ∧ ((0 < n)%nat ∨ (Mcwho e logPath w rounds pos).1.2 = Waiting →
          k = length (gzNames (ReadDir names))).
Proof.
  intros Hdir. unfold Mcwho, setupWatcher. rewrite Hdir.
  destruct (w_watch w (Join logPath "latest.log")) as [err|].
  { exists 0%nat, 0%nat. cbn [fst snd]. split; [done|]. intros [?|?]; [lia|done]. }
  destruct (backfill_opens e logPath w (ReadDir names) pos) as (k & Hk & Hall).
  destruct (backfill e logPath w (ReadDir names) pos) as [[tr1 ret] pos1].
  cbn [fst snd] in Hk, Hall. destruct ret.
  - exists k, 0%nat. cbn [fst snd]. split.
    + by rewrite app_nil_l, Hk, app_nil_r.
    + intros [?|?]; [lia|done].
  - destruct (tail_opens e (Join logPath "latest.log") rounds pos1) as [n Hn].
    destruct (tail e (Join logPath "latest.log") rounds pos1) as [[tr2 st] pos2].
    cbn [fst] in Hn. exists k, n. cbn [fst snd]. split.
    + by rewrite app_nil_l, opens_app, Hk, Hn, (Hall eq_refl), firstn_all.
    + intros _. by apply Hall.
Qed.

(** The second pass reads the live file once for each round until a
    read fails, at least once when there is a round. *)
Lemma tail_reads (e : env) (logFile : string)
    (rounds : list (file * wsignal)) : ∀ pos,
  ∃ n, opens (tail e logFile rounds pos).1.1 = replicate n logFile
       ∧ (n ≤ length rounds)%nat
       ∧ (rounds ≠ [] → (0 < n)%nat).
Proof.
  induction rounds as [|[logf sig] rounds IH]; intros pos.
  - by exists 0%nat.
  - cbn [tail].
    pose proof (readLog_opens e logFile logf pos) as Hopen.
    destruct (readLog e logFile logf pos) as [[tr err] pos1]. cbn [fst] in Hopen.
    destruct err as [err|].
    + exists 1%nat. cbn [fst length]. rewrite opens_app, Hopen.
      split; [done|]. split; lia.
    + destruct (IH pos1) as (n & Hn & Hle & _).
      destruct (tail e logFile rounds pos1) as [[tr' st] pos2]. cbn [fst] in Hn.
      exists (S n). cbn [length]. split; [|split; lia].
      destruct sig as [|err]; cbn [fst].
      * by rewrite opens_app, Hopen, Hn.
      * by rewrite opens_app, opens_cons, Hopen, Hn.
Qed.

(** ** Paths *)

Lemma append_assoc (a b c : string) : (a ++ b) ++ c = a ++ (b ++ c).
Proof.
  induction a as [|x a IH]; [done|].
  change (String x (a ++ b) ++ c = String x (a ++ (b ++ c))).
  change (String x ((a ++ b) ++ c) = String x (a ++ (b ++ c))). by rewrite IH.
Qed.

Lemma append_cons (x : ascii) (a b : string) :
  String x a ++ b = String x (a ++ b).
Proof. done. Qed.

Lemma list_ascii_append (a b : string) :
  list_ascii_of_string (a ++ b)
  = (list_ascii_of_string a ++ list_ascii_of_string b)%list.
Proof.
  induction a as [|x a IH]; [done|].
  rewrite append_cons. cbn [list_ascii_of_string]. by rewrite IH.
Qed.

Lemma string_of_list_snoc (l : list ascii) (c : ascii) (s : string) :
  string_of_list_ascii (l ++ [c]) ++ s = string_of_list_ascii l ++ String c s.
Proof.
  induction l as [|x l IH]; [done|].
  cbn [app string_of_list_ascii]. by rewrite !append_cons, IH.
Qed.

Lemma append_ne_nil (a : string) (c : ascii) (b : string) :
  a ++ String c b ≠ "".
Proof. by destruct a. Qed.

(** [path.Ext] returns the end of the path. *)
Lemma ext_scan_suffix (rpath : list ascii) : ∀ suffix,
  ∃ front, string_of_list_ascii (rev rpath) ++ suffix
           = front ++ ext_scan rpath suffix.
Proof.
  induction rpath as [|c rpath IH]; intros suffix.
  - exists suffix. cbn. by rewrite append_nil_r.
  - cbn [rev ext_scan]. rewrite string_of_list_snoc.
    destruct (byte_eqb c slash).
    + eexists. by rewrite append_nil_r.
    + destruct (byte_eqb c dot); [by eexists|]. apply IH.
Qed.

Lemma Ext_suffix (path : string) : ∃ front, path = front ++ Ext path.
Proof.
  destruct (ext_scan_suffix (rev (list_ascii_of_string path)) "") as [front H].
  exists front. unfold Ext. rewrite <- H.
  by rewrite rev_involutive, string_of_list_ascii_of_string, append_nil_r.
Qed.

Lemma Ext_gz (file : string) :
  Ext file = gzipext ↔ ∃ stem, file = stem ++ ".gz".
Proof.
  split.
  - intros Hext. destruct (Ext_suffix file) as [stem H]. exists stem.
    by rewrite Hext in H.
  - intros [stem ->]. unfold Ext. rewrite list_ascii_append, rev_app_distr.
    reflexivity.
Qed.

Lemma ext_scan_stop (rfile rest : list ascii) : ∀ suffix,
  (∀ c, In c rfile → byte_eqb c slash = false) →
  ext_scan (rfile ++ slash :: rest) suffix = ext_scan rfile suffix.
Proof.
  induction rfile as [|c rfile IH]; intros suffix Hfile; [done|].
  cbn [app ext_scan]. rewrite (Hfile c) by (by left).
  destruct (byte_eqb c dot); [done|]. apply IH. intros c' Hc'. apply Hfile.
  by right.
Qed.

Lemma noSlash_In (file : string) (c : ascii) :
  noSlash file = true → In c (list_ascii_of_string file) →
  byte_eqb c slash = false.
Proof.
  unfold noSlash. intros Hfile Hc.
  apply (proj1 (forallb_forall _ _) Hfile) in Hc. by apply negb_true_iff in Hc.
Qed.

Lemma Ext_after_slash (dir file : string) :
  noSlash file = true → Ext (dir ++ "/" ++ file) = Ext file.
Proof.
  intros Hfile. unfold Ext.
  rewrite list_ascii_append. cbn [append list_ascii_of_string].
  change (list_ascii_of_string ("/" ++ file))
    with (slash :: list_ascii_of_string file).
  rewrite rev_app_distr. cbn [rev]. rewrite <- app_assoc. cbn [app].
  apply ext_scan_stop. intros c Hc. apply (noSlash_In file c Hfile).
  by apply in_rev.
Qed.

(** The elements of a path that ends in a file name. *)
Lemma elements_go_file (file : string) : ∀ cur,
  noSlash file = true →
  elements_go cur file = [string_of_list_ascii (rev cur) ++ file].
Proof.
  induction file as [|c file IH]; intros cur Hfile.
  - cbn. by rewrite append_nil_r.
  - unfold noSlash in Hfile. cbn [list_ascii_of_string forallb] in Hfile.
    apply andb_prop in Hfile as [Hc Hfile]. apply negb_true_iff in Hc.
    cbn [elements_go]. rewrite Hc, (IH (c :: cur) Hfile). cbn [rev].
    by rewrite string_of_list_snoc.
Qed.

Lemma elements_go_slash (dir rest : string) : ∀ cur,
  elements_go cur (dir ++ "/" ++ rest)
  = (elements_go cur dir ++ elements_go [] rest)%list.
Proof.
  induction dir as [|c dir IH]; intros cur; [done|].
  rewrite append_cons. cbn [elements_go].
  destruct (byte_eqb c slash); [|apply IH]. by rewrite IH.
Qed.

Lemma strings_Join_snoc (elems : list string) (x sep : string) :
  elems ≠ [] →
  strings_Join (elems ++ [x]) sep = strings_Join elems sep ++ sep ++ x.
Proof.
  induction elems as [|a elems IH]; [done|]. intros _.
  destruct elems as [|b elems]; [done|].
  change (strings_Join ((a :: b :: elems) ++ [x]) sep)
    with (a ++ sep ++ strings_Join ((b :: elems) ++ [x]) sep).
  rewrite IH by done.
  change (strings_Join (a :: b :: elems) sep)
    with (a ++ sep ++ strings_Join (b :: elems) sep).
  by rewrite !append_assoc.
Qed.

Lemma clean_elem_file (rooted : bool) (out : list string) (file : string) :
  file ≠ "" → file ≠ "." → file ≠ ".." →
  clean_elem rooted out file = file :: out.
Proof.
  intros H0 H1 H2. unfold clean_elem.
  rewrite decide_False by (intros [?|?]; done). by rewrite decide_False.
Qed.

(** A file name joined to a directory stays the last element. *)
Lemma Join_file (dir file : string) :
  noSlash file = true → file ≠ "" → file ≠ "." → file ≠ ".." →
  Join dir file = file ∨ ∃ front, Join dir file = front ++ "/" ++ file.
Proof.
  intros Hfile H0 H1 H2. unfold Join.
  destruct (decide (dir = "")) as [->|Hdir].
  - left. rewrite decide_False by done. unfold Clean.
    rewrite decide_False by done.
    assert (isRooted file = false) as ->.
    { destruct file as [|c file]; [done|]. cbn.
      apply (noSlash_In _ c Hfile). by left. }
    unfold elements. rewrite (elements_go_file file [] Hfile).
    cbn [rev string_of_list_ascii foldl]. rewrite clean_elem_file by done.
    cbn [rev app strings_Join]. change ("" ++ file) with file.
    by rewrite decide_False.
  - unfold Clean.
    assert (Hpath : dir ++ "/" ++ file ≠ "") by (by destruct dir).
    rewrite decide_False by done.
    unfold elements. rewrite elements_go_slash, (elements_go_file file [] Hfile).
    cbn [rev string_of_list_ascii]. change ("" ++ file) with file.
    rewrite foldl_app. cbn [foldl]. rewrite clean_elem_file by done.
    set (out := foldl _ [] (elements_go [] dir)). cbn [rev].
    destruct (rev out) as [|a elems] eqn:Hout.
    + cbn [app strings_Join].
      destruct (isRooted (dir ++ "/" ++ file)).
      * right. exists "". rewrite decide_False; [done|].
        exact (append_ne_nil "" slash file).
      * left. by rewrite decide_False.
    + rewrite strings_Join_snoc by done.
      destruct (isRooted (dir ++ "/" ++ file)).
      * right. exists ("/" ++ strings_Join (a :: elems) "/").
        rewrite <- append_assoc. rewrite decide_False; [done|].
        rewrite append_assoc. exact (append_ne_nil "" slash _).
      * right. exists (strings_Join (a :: elems) "/").
        rewrite decide_False; [done|].
        exact (append_ne_nil _ slash file).
Qed.

Lemma Ext_Join (dir file : string) :
  noSlash file = true → file ≠ "" → file ≠ "." → file ≠ ".." →
  Ext (Join dir file) = Ext file.
Proof.
  intros Hfile H0 H1 H2.
  destruct (Join_file dir file Hfile H0 H1 H2) as [->|[front ->]]; [done|].
  by apply Ext_after_slash.
Qed.

Lemma Ext_Join_gz (dir file : string) :
  noSlash file = true → Ext file = gzipext → Ext (Join dir file) = gzipext.
Proof.
  intros Hfile Hext. rewrite <- Hext. apply Ext_Join; [done|..];
    intros ->; discriminate Hext.
Qed.

Lemma Ext_Join_latest (dir : string) : Ext (Join dir "latest.log") = ".log".
Proof. by rewrite Ext_Join. Qed.

(** The first pass, archive by archive: those it opens are the first [.gz]
    entries of the listing, and what it sends is what each of them holds,
    one archive after the other. *)
Lemma backfill_reads (e : env) (logPath : string) (w : world)
    (files : list string) :
  Forall (λ file, noSlash file = true) files → ∀ pos,
  ∃ k, opens (backfill e logPath w files pos).1.1
       = Join logPath <$> take k (gzNames files)
     ∧ sent (backfill e logPath w files pos).1.1
       = concat (archiveSends e logPath w <$> take k (gzNames files))
     ∧ ((backfill e logPath w files pos).1.2 = false →
        k = length (gzNames files)).
Proof.
  intros Hfiles. induction Hfiles as [|file files Hfile Hfiles IH]; intros pos.
  - exists 0%nat. done.
  - cbn [backfill]. rewrite gzNames_cons.
    destruct (decide (Ext file = gzipext)) as [Hgz|Hgz].
    + rewrite decide_False by (intros Hne; done).
      pose proof (Ext_Join_gz logPath file Hfile Hgz) as Hext.
      pose proof (readLog_opens e (Join logPath file)
                    (w_file w (Join logPath file)) pos) as Hopen.
      assert (Hsent : sent (readLog e (Join logPath file)
                              (w_file w (Join logPath file)) pos).1.1
                      = archiveSends e logPath w file).
      { unfold archiveSends.
        by rewrite (proj1 (readLog_gz_cursor e _ _ pos Hext)). }
      destruct (readLog e (Join logPath file) (w_file w (Join logPath file)) pos)
        as [[tr err] pos1]. cbn [fst] in Hopen, Hsent.
      destruct err as [err|].
      * exists 1%nat. cbn [fst snd]. split_and!; [| |done].
        -- rewrite opens_app, !opens_cons, Hopen. cbn [take].
           by destruct (gzNames files).
        -- rewrite sent_app, !sent_cons, Hsent. cbn [take sentEvent option_list].
           destruct (gzNames files); cbn; by rewrite !app_nil_r.
      * destruct (IH pos1) as (k & Hk & Hs & Hall).
        destruct (backfill e logPath w files pos1) as [[tr' ret] pos2].
        cbn [fst snd] in *. exists (S k). split_and!.
        -- by rewrite opens_app, opens_cons, Hopen, Hk.
        -- rewrite sent_app, sent_cons, Hsent, Hs. by cbn.
        -- intros Hret. cbn [length]. by rewrite (Hall Hret).
    + rewrite decide_True by done. apply IH.
Qed.

(** When every archive can be read, the first pass reads them all and
    goes on to the live file. *)
Lemma backfill_complete (e : env) (logPath : string) (w : world)
    (files : list string) :
  Forall (λ file, noSlash file = true) files →
  Forall (λ file, Ext file = gzipext →
                  archiveOpens (w_file w (Join logPath file))) files →
  ∀ pos, (backfill e logPath w files pos).1.2 = false.
Proof.
  intros Hfiles. induction Hfiles as [|file files Hfile Hfiles IH];
    intros Hok pos; [done|].
  apply Forall_cons in Hok as [Hok Hoks].
  cbn [backfill]. destruct (decide (Ext file ≠ gzipext)) as [Hne|Hgz].
  - by apply IH.
  - assert (Hext : Ext file = gzipext)
      by (by destruct (decide (Ext file = gzipext))).
    rewrite (readLog_gz e _ _ pos (Ext_Join_gz logPath file Hfile Hext)
               (Hok Hext)).
    specialize (IH Hoks pos).
    by destruct (backfill e logPath w files pos) as [[tr' ret] pos2].
Qed.


(** ** Dates in names *)

Lemma isDigit_val (c : ascii) :
  isDigit c = true → 0 <= digitVal c <= 9.
Proof.
  unfold isDigit, digitVal. intros H. apply andb_prop in H as [H1 H2].
  apply Nat.leb_le in H1. apply Nat.leb_le in H2. lia.
Qed.

Lemma digit_compare (a b : ascii) :
  match Ascii.compare a b with
  | Eq => digitVal a = digitVal b
  | Lt => digitVal a < digitVal b
  | Gt => True
  end.
Proof.
  unfold Ascii.compare, digitVal, nat_of_ascii.
  destruct (N.compare_spec (N_of_ascii a) (N_of_ascii b)) as [Heq|Hlt|Hgt].
  - by rewrite Heq.
  - lia.
  - done.
Qed.

Lemma isDate_inv (d : string) :
  isDate d = true →
  ∃ y1 y2 y3 y4 m1 m2 d1 d2,
    d = String y1 (String y2 (String y3 (String y4 (String "-"%char
          (String m1 (String m2 (String "-"%char
             (String d1 (String d2 "")))))))))
    ∧ Forall (λ c, isDigit c = true) [y1; y2; y3; y4; m1; m2; d1; d2].
Proof.
  unfold isDate. intros H.
  do 10 (destruct d as [|? d]; [discriminate H|]).
  destruct d; [|discriminate H]. cbn [list_ascii_of_string] in H.
  do 9 (apply andb_prop in H as [H ?]).
  repeat match goal with
         | Hc : byte_eqb _ _ = true |- _ => apply Ascii.eqb_eq in Hc; subst
         end.
  do 8 eexists. split; [reflexivity|]. repeat constructor; assumption.
Qed.

(** Names that start with a date in full are in the order of their dates
    when they are in the order of their bytes. *)
Lemma dateKey_mono (d1 d2 rest1 rest2 : string) :
  isDate d1 = true → isDate d2 = true →
  String.le (d1 ++ rest1) (d2 ++ rest2) →
  dateKey d1 <= dateKey d2.
Proof.
  intros H1 H2.
  destruct (isDate_inv d1 H1) as (a1 & a2 & a3 & a4 & a5 & a6 & a7 & a8 & -> & Ha).
  destruct (isDate_inv d2 H2) as (b1 & b2 & b3 & b4 & b5 & b6 & b7 & b8 & -> & Hb).
  repeat match goal with
         | H : Forall _ (_ :: _) |- _ =>
             apply Forall_cons in H as [?%isDigit_val H]
         end.
  unfold String.le, String.leb. rewrite !append_cons.
  cbn [String.compare dateKey list_ascii_of_string digitsVal foldl].
  change (Ascii.compare "-" "-") with Eq. cbv iota.
  pose proof (digit_compare a1 b1). pose proof (digit_compare a2 b2).
  pose proof (digit_compare a3 b3). pose proof (digit_compare a4 b4).
  pose proof (digit_compare a5 b5). pose proof (digit_compare a6 b6).
  pose proof (digit_compare a7 b7). pose proof (digit_compare a8 b8).
  destruct (Ascii.compare a1 b1); [|intros _; lia|intros []].
  destruct (Ascii.compare a2 b2); [|intros _; lia|intros []].
  destruct (Ascii.compare a3 b3); [|intros _; lia|intros []].
  destruct (Ascii.compare a4 b4); [|intros _; lia|intros []].
  destruct (Ascii.compare a5 b5); [|intros _; lia|intros []].
  destruct (Ascii.compare a6 b6); [|intros _; lia|intros []].
  destruct (Ascii.compare a7 b7); [|intros _; lia|intros []].
  destruct (Ascii.compare a8 b8); [|intros _; lia|intros []].
  intros _. lia.
Qed.

Lemma archiveDay_mono (file1 file2 : string) :
  startsWithDate file1 → startsWithDate file2 →
  String.le file1 file2 → archiveDay file1 <= archiveDay file2.
Proof.
  intros (d1 & r1 & Hd1 & Hdate1 & E1) (d2 & r2 & Hd2 & Hdate2 & E2) Hle.
  unfold archiveDay. rewrite Hd1, Hd2. cbn [default].
  rewrite E1, E2 in Hle. by apply (dateKey_mono d1 d2 r1 r2).
Qed.

Lemma StronglySorted_days (files : list string) :
  Forall startsWithDate files →
  StronglySorted String.le files →
  StronglySorted Z.le (archiveDay <$> files).
Proof.
  intros Hdated Hsorted. induction Hsorted as [|file files Hs IH Hall].
  - constructor.
  - apply Forall_cons in Hdated as [Hfile Hfiles]. csimpl. constructor.
    + by apply IH.
    + rewrite Forall_fmap. rewrite Forall_forall in Hall, Hfiles |- *.
      intros file' Hin. cbn. apply archiveDay_mono; auto.
Qed.

Lemma StronglySorted_gzNames (files : list string) :
  StronglySorted String.le files → StronglySorted String.le (gzNames files).
Proof.
  intros Hsorted. induction Hsorted as [|file files Hs IH Hall]; [constructor|].
  rewrite gzNames_cons. destruct (decide (Ext file = gzipext)); [|done].
  constructor; [done|]. rewrite Forall_forall in Hall |- *.
  intros file' Hin. apply Hall. unfold gzNames in Hin.
  by apply list_elem_of_filter in Hin as [_ Hin].
Qed.

Lemma gzNames_ReadDir (names : list string) :
  gzNames (ReadDir names) ≡ₚ gzNames names
  ∧ StronglySorted String.le (gzNames (ReadDir names)).
Proof.
  split.
  - unfold gzNames, ReadDir. by rewrite merge_sort_Permutation.
  - apply StronglySorted_gzNames. unfold ReadDir.
    apply (StronglySorted_merge_sort String.le).
Qed.

Lemma elem_of_gzNames_ReadDir (names : list string) (file : string) :
  file ∈ gzNames (ReadDir names) ↔ file ∈ names ∧ Ext file = gzipext.
Proof.
  destruct (gzNames_ReadDir names) as [Hperm _]. rewrite Hperm.
  unfold gzNames. rewrite list_elem_of_filter. tauto.
Qed.

(** An archive that cannot be read ends the first pass, and the task:
    the entries after it are not opened. *)
Lemma backfill_failed_archive (e : env) (logPath : string) (w : world)
    (file : string) (files : list string) (pos : Z) :
  noSlash file = true → Ext file = gzipext →
  ¬ archiveOpens (w_file w (Join logPath file)) →
  opens (backfill e logPath w (file :: files) pos).1.1 = [Join logPath file]
  ∧ (backfill e logPath w (file :: files) pos).1.2 = true.
Proof.
  intros Hfile Hext Hbad. cbn [backfill].
  rewrite decide_False by (intros Hne; done).
  pose proof (Ext_Join_gz logPath file Hfile Hext) as Hpath.
  pose proof (readLog_opens e (Join logPath file)
                (w_file w (Join logPath file)) pos) as Hopen.
  assert (Herr : is_Some (readLog e (Join logPath file)
                            (w_file w (Join logPath file)) pos).1.2).
  { unfold archiveOpens in Hbad. unfold readLog, getLogReader.
    destruct (f_open (w_file w (Join logPath file))) as [err|]; [by eexists|].
    rewrite decide_True by done.
    destruct (f_gzip (w_file w (Join logPath file))) as [err|]; [by eexists|].
    by destruct Hbad. }
  destruct (readLog e (Join logPath file) (w_file w (Join logPath file)) pos)
    as [[tr err] pos1]. cbn [fst snd] in Hopen, Herr.
  destruct Herr as [err' ->]. cbn [fst snd]. split; [|done].
  by rewrite opens_app, !opens_cons, Hopen.
Qed.

Lemma Forall_ReadDir (P : string → Prop) (names : list string) :
  Forall P names → Forall P (ReadDir names).
Proof. unfold ReadDir. by rewrite merge_sort_Permutation. Qed.

(** The events of a run: those of the archives it opens, file by file in
    the order of the listing, and after them what the live file gives. *)
Lemma Mcwho_reads (e : env) (logPath : string) (w : world)
    (names : list string) (rounds : list (file * wsignal)) (pos : Z) :
  w_readdir w = inr names →
  Forall (λ file, noSlash file = true) names →
  ∃ k n later,
    opens (Mcwho e logPath w rounds pos).1.1
    = ((Join logPath <$> take k (gzNames (ReadDir names)))
       ++ replicate n (Join logPath "latest.log"))%list
    ∧ sent (Mcwho e logPath w rounds pos).1.1
      = (concat (archiveSends e logPath w
                   <$> take k (gzNames (ReadDir names))) ++ later)%list
    ∧ (n = 0%nat → later = []).
Proof.
  intros Hdir Hnames. unfold Mcwho, setupWatcher. rewrite Hdir.
  destruct (w_watch w (Join logPath "latest.log")) as [err|].
  { by exists 0%nat, 0%nat, []. }
  destruct (backfill_reads e logPath w (ReadDir names)
              (Forall_ReadDir _ _ Hnames) pos) as (k & Hk & Hs & Hall).
  destruct (backfill e logPath w (ReadDir names) pos) as [[tr1 ret] pos1].
  cbn [fst snd] in Hk, Hs, Hall. destruct ret.
  - exists k, 0%nat, []. cbn [fst snd].
    by rewrite !app_nil_l, Hk, Hs, !app_nil_r.
  - destruct (tail_reads e (Join logPath "latest.log") rounds pos1)
      as (n & Hn & _ & Hpos).
    assert (Hnone : n = 0%nat →
              sent (tail e (Join logPath "latest.log") rounds pos1).1.1 = []).
    { intros ->. destruct rounds as [|round rounds]; [done|].
      assert (0 < 0)%nat by (by apply Hpos). lia. }
    destruct (tail e (Join logPath "latest.log") rounds pos1) as [[tr2 st] pos2].
    cbn [fst] in Hn, Hnone. exists k, n, (sent tr2). cbn [fst snd].
    by rewrite !app_nil_l, opens_app, sent_app, Hk, Hs, Hn.
Qed.

(** ** The order of the first pass *)




(** ** What the two passes read *)

(** C10. In a directory that can be listed and watched and whose archives
    can all be read, the first pass opens the entries whose name ends in
    [.gz], all of them and no other entry. Each one is read as an archive:
    [getLogReader] takes its gzip branch, which gives a reader on the whole
    decompressed stream and leaves the cursor alone, and the events of the
    whole stream are sent. An entry of another kind leaves no trace at
    all. After the archives the run opens [latest.log] and nothing else,
    once for each round until a read fails; [latest.log] is the one path
    opened that is not an archive, and for it [getLogReader] takes the
    branch of plain files: [Stat], the cursor, the offset on standard
    output. *)
Theorem C10_gz_entries_and_latest_log (e : env) (logPath : string)
    (w : world) (names : list string) (rounds : list (file * wsignal))
    (pos : Z) :
  w_watch w (Join logPath "latest.log") = None →
  w_readdir w = inr names →
  Forall (λ file, noSlash file = true) names →
  Forall (λ file, Ext file = gzipext →
                  archiveOpens (w_file w (Join logPath file))) names →
  let run := Mcwho e logPath w rounds pos in
  let first := backfill e logPath w (ReadDir names) pos in
  let archives := gzNames (ReadDir names) in
  let live := Join logPath "latest.log" in
  (∀ file, Ext file = gzipext ↔ ∃ stem, file = stem ++ ".gz")
  ∧ (∀ file, file ∈ archives ↔ file ∈ names ∧ Ext file = gzipext)
  ∧ opens first.1.1 = Join logPath <$> archives
  ∧ sent first.1.1 = concat (archiveSends e logPath w <$> archives)
  ∧ (∀ file pos', file ∈ archives →
       let path := Join logPath file in
       let logf := w_file w path in
       getLogReader path logf pos'
       = ([], inr (Reader 0 (f_bytes logf) (f_readErr logf)), pos')
       ∧ (readLog e path logf pos').1.2 = None
       ∧ (readLog e path logf pos').2 = pos'
       ∧ ((resolveDate e path logf).2 = None →
          sent (readLog e path logf pos').1.1
          = eventsIn e (dateOf e path logf) (f_bytes logf)))
  ∧ (∀ file files pos',
       Ext file ≠ gzipext →
       backfill e logPath w (file :: files) pos'
       = backfill e logPath w files pos')
  ∧ (∃ n, opens run.1.1
          = ((Join logPath <$> archives) ++ replicate n live)%list
        ∧ (n ≤ length rounds)%nat ∧ (rounds ≠ [] → (0 < n)%nat))
  ∧ (∀ path, path ∈ opens run.1.1 → Ext path ≠ gzipext → path = live)
  ∧ (∀ logf pos',
       getLogReader live logf pos'
       = match f_stat logf with
         | Some err => ([], inl err, pos')
         | None =>
             let pos'' := if fileSize logf <? pos' then 0 else pos' in
             ([Stdout ("Starting read at offset " ++ itoa pos'' ++ "
")],
              inr (Reader pos'' (dropBytes (Z.to_nat pos'') (f_bytes logf))
                          (f_readErr logf)),
              pos'')
         end).
Proof.
  intros Hwatch Hdir Hnames Hreads run first archives live.
  pose proof (Forall_ReadDir _ _ Hnames) as Hnames'.
  pose proof (Forall_ReadDir _ _ Hreads) as Hreads'.
  pose proof (backfill_complete e logPath w _ Hnames' Hreads' pos) as Hret.
  destruct (backfill_reads e logPath w _ Hnames' pos) as (k & Hk & Hs & Hall).
  fold first in Hret, Hk, Hs, Hall. specialize (Hall Hret). subst k.
  fold archives in Hk, Hs. rewrite firstn_all in Hk, Hs.
  assert (Hrun : ∃ n, opens run.1.1
                      = ((Join logPath <$> archives) ++ replicate n live)%list
                    ∧ (n ≤ length rounds)%nat ∧ (rounds ≠ [] → (0 < n)%nat)).
  { unfold run, Mcwho, setupWatcher. rewrite Hwatch, Hdir. fold first.
    destruct first as [[tr1 ret] pos1]. cbn [fst snd] in Hret, Hk. subst ret.
    destruct (tail_reads e live rounds pos1) as (n & Hn & Hle & Hpos).
    fold live. destruct (tail e live rounds pos1) as [[tr2 st] pos2].
    cbn [fst] in Hn. exists n. cbn [fst]. split; [|done].
    by rewrite app_nil_l, opens_app, Hk, Hn. }
  split; [apply Ext_gz|]. split; [apply elem_of_gzNames_ReadDir|].
  split; [done|]. split; [done|]. split.
  { intros file pos' Hin path logf.
    apply elem_of_gzNames_ReadDir in Hin as [Hin Hext].
    rewrite Forall_forall in Hnames, Hreads.
    pose proof (Ext_Join_gz logPath file (Hnames _ Hin) Hext) as Hpath.
    pose proof (Hreads _ Hin Hext) as Hok. fold path in Hpath, Hok.
    fold logf in Hok. split_and!.
    - unfold getLogReader. rewrite decide_True by done.
      destruct Hok as [_ Hgz]. by rewrite Hgz.
    - by rewrite (readLog_gz e path logf pos' Hpath Hok).
    - by rewrite (readLog_gz e path logf pos' Hpath Hok).
    - by apply sent_readLog_gz. }
  split.
  { intros file files pos' Hext. cbn [backfill]. by rewrite decide_True. }
  split; [done|]. split.
  { intros path Hpath Hext. destruct Hrun as (n & Hopens & _).
    rewrite Hopens in Hpath. apply elem_of_app in Hpath as [Hpath|Hpath].
    - apply list_elem_of_fmap in Hpath as (file & -> & Hfile).
      apply elem_of_gzNames_ReadDir in Hfile as [Hin Hgz].
      rewrite Forall_forall in Hnames.
      by destruct Hext; apply Ext_Join_gz; [apply Hnames|].
    - by apply elem_of_replicate in Hpath as [-> _]. }
  intros logf pos'. unfold getLogReader, live.
  rewrite decide_False; [done|]. rewrite Ext_Join_latest. discriminate.
Qed.

Lemma C10_gz_entries_and_latest_log_witness :
  opens (backfill est "logs" dated
           (ReadDir ["2014-03-02-1.log.gz"; "latest.log";
                     "2014-03-01-1.log.gz"; "notes.txt"]) 0).1.1
  = ["logs/2014-03-01-1.log.gz"; "logs/2014-03-02-1.log.gz"]
  ∧ opens (Mcwho est "logs" dated [(plainFile "", WEvent)] 0).1.1
    = ["logs/2014-03-01-1.log.gz"; "logs/2014-03-02-1.log.gz";
       "logs/latest.log"].
Proof.
  assert (Hnames : Forall (λ file, noSlash file = true)
            ["2014-03-02-1.log.gz"; "latest.log"; "2014-03-01-1.log.gz";
             "notes.txt"]) by (repeat constructor).
  assert (Hreads : Forall (λ file, Ext file = gzipext →
                                   archiveOpens (w_file dated (Join "logs" file)))
            ["2014-03-02-1.log.gz"; "latest.log"; "2014-03-01-1.log.gz";
             "notes.txt"]) by (repeat constructor).
  destruct (C10_gz_entries_and_latest_log est "logs" dated _
              [(plainFile "", WEvent)] 0 eq_refl eq_refl Hnames Hreads)
    as (_ & _ & Hfirst & _ & _ & _ & (n & Hrun & Hle & Hpos) & _).
  split; [exact Hfirst|].
  assert (n = 1%nat) as -> by (cbn [length] in Hle; specialize (Hpos ltac:(done)); lia).
  exact Hrun.
Defined.

(* ===================================================================== *)
(** * Part III: further properties                                       *)
(* ===================================================================== *)

(** ** The tracker, event by event *)

Lemma track_snoc (st : tables) (evs : list event) (ev : event) :
  track st (evs ++ [ev]) = step (track st evs) ev.
Proof. unfold track. by rewrite foldl_app. Qed.

Lemma lastEventOf_snoc (u : string) (evs : list event) (ev : event) :
  lastEventOf u (evs ++ [ev])
  = if decide (name (eventUser ev) = u) then Some ev else lastEventOf u evs.
Proof.
  unfold lastEventOf. rewrite filter_app, filter_cons, filter_nil.
  destruct (decide (name (eventUser ev) = u)).
  - apply last_snoc.
  - by rewrite app_nil_r.
Qed.

(** X1. The last event that names a user decides where the user is: after
    any sequence of events, a user whose last event is a login is in
    [usersOn] with the record of that login and not in [usersOff]; a user
    whose last event is a logout is in [usersOff] with the record of that
    logout and not in [usersOn]; a user no event names is where the
    tables had them before. *)
Theorem X1_last_event_decides (st : tables) (evs : list event) (u : string) :
  match lastEventOf u evs with
  | Some (Conn user) =>
      usersOn (track st evs) !! u = Some user
      ∧ usersOff (track st evs) !! u = None
  | Some (Disc user) =>
      usersOn (track st evs) !! u = None
      ∧ usersOff (track st evs) !! u = Some user
  | None =>
      usersOn (track st evs) !! u = usersOn st !! u
      ∧ usersOff (track st evs) !! u = usersOff st !! u
  end.
Proof.
  induction evs as [|ev evs IH] using rev_ind; [done|].
  rewrite track_snoc, lastEventOf_snoc.
  destruct (decide (name (eventUser ev) = u)) as [<-|Hne].
  - destruct ev as [user|user]; cbn [step eventUser usersOn usersOff].
    + by rewrite lookup_insert_eq, lookup_delete_eq.
    + by rewrite lookup_insert_eq, lookup_delete_eq.
  - assert (Hstep : usersOn (step (track st evs) ev) !! u
                    = usersOn (track st evs) !! u
                    ∧ usersOff (step (track st evs) ev) !! u
                      = usersOff (track st evs) !! u).
    { destruct ev as [user|user]; cbn [step eventUser usersOn usersOff] in *;
        by rewrite lookup_insert_ne, lookup_delete_ne. }
    destruct Hstep as [-> ->]. exact IH.
Qed.

(** X2. In the tables built from the empty ones, every record is stored
    under its own name: the key of an entry is the [name] field of its
    value, in [usersOn] and in [usersOff]. *)
Theorem X2_records_keyed_by_name (evs : list event) (k : string) (v : mcuser) :
  (usersOn (track initTables evs) !! k = Some v → name v = k)
  ∧ (usersOff (track initTables evs) !! k = Some v → name v = k).
Proof.
  revert k v. induction evs as [|ev evs IH] using rev_ind; intros k v.
  - cbn. by rewrite lookup_empty.
  - rewrite track_snoc.
    destruct ev as [user|user]; cbn [step usersOn usersOff]; split; intros Hk.
    + apply lookup_insert_Some in Hk as [[<- <-]|[_ Hk]]; [done|].
      by apply (proj1 (IH k v)).
    + apply lookup_delete_Some in Hk as [_ Hk]. by apply (proj2 (IH k v)).
    + apply lookup_delete_Some in Hk as [_ Hk]. by apply (proj1 (IH k v)).
    + apply lookup_insert_Some in Hk as [[<- <-]|[_ Hk]]; [done|].
      by apply (proj2 (IH k v)).
Qed.

(** X3. An event touches the entries of the user it names and no others;
    and the logout of a user who is not on leaves [usersOn] as it is,
    while the user is recorded in [usersOff] (the [delete] of a key that
    is not there does nothing); likewise for the login of a user who is
    not in [usersOff]. *)
Theorem X3_event_touches_one_user (st : tables) (user : mcuser) :
  (∀ ev k, k ≠ name (eventUser ev) →
     usersOn (step st ev) !! k = usersOn st !! k
     ∧ usersOff (step st ev) !! k = usersOff st !! k)
  ∧ (usersOn st !! name user = None →
       usersOn (step st (Disc user)) = usersOn st
       ∧ usersOff (step st (Disc user)) !! name user = Some user)
  ∧ (usersOff st !! name user = None →
       usersOff (step st (Conn user)) = usersOff st
       ∧ usersOn (step st (Conn user)) !! name user = Some user).
Proof.
  split; [|split].
  - intros ev k Hk.
    destruct ev as [user'|user']; cbn [step eventUser usersOn usersOff] in *;
      by rewrite lookup_insert_ne, lookup_delete_ne.
  - intros Hnot. cbn [step usersOn usersOff].
    by rewrite delete_id, lookup_insert_eq.
  - intros Hnot. cbn [step usersOn usersOff].
    by rewrite delete_id, lookup_insert_eq.
Qed.

(** ** The lines of a file *)

Lemma string_of_rev_cons (cur : list ascii) (c : ascii) (s : string) :
  string_of_list_ascii (rev (c :: cur)) ++ s
  = string_of_list_ascii (rev cur) ++ String c s.
Proof. cbn [rev]. apply string_of_list_snoc. Qed.

Lemma noNewline_snoc (l : list ascii) (c : ascii) :
  noNewline (string_of_list_ascii l) = true → byte_eqb c newline = false →
  noNewline (string_of_list_ascii (l ++ [c])) = true.
Proof.
  unfold noNewline. rewrite !list_ascii_of_string_of_list_ascii.
  intros Hl Hc. rewrite forallb_app, Hl. cbn. by rewrite Hc.
Qed.

Lemma readStrings_go_lines (data : string) : ∀ cur,
  noNewline (string_of_list_ascii (rev cur)) = true →
  ∃ lines rest,
    readStrings_go cur data = (lines ++ [rest])%list
    ∧ Forall isLine lines
    ∧ noNewline rest = true
    ∧ foldr String.append "" (lines ++ [rest])
      = string_of_list_ascii (rev cur) ++ data.
Proof.
  induction data as [|c data IH]; intros cur Hcur.
  - exists [], (string_of_list_ascii (rev cur)). cbn [readStrings_go app foldr].
    split; [done|]. split; [constructor|]. split; [done|]. done.
  - cbn [readStrings_go]. destruct (byte_eqb c newline) eqn:Hc.
    + destruct (IH [] eq_refl) as (lines & rest & Hgo & Hlines & Hrest & Hcat).
      exists (string_of_list_ascii (rev (c :: cur)) :: lines), rest.
      rewrite Hgo. split; [done|]. split; [|split; [done|]].
      * constructor; [|done]. exists (string_of_list_ascii (rev cur)).
        split; [|done]. apply Ascii.eqb_eq in Hc. subst c.
        rewrite <- (append_nil_r (string_of_list_ascii (rev (newline :: cur)))).
        by rewrite string_of_rev_cons.
      * rewrite <- app_comm_cons. cbn [foldr]. rewrite Hcat.
        cbn [rev string_of_list_ascii]. change ("" ++ data) with data.
        apply string_of_rev_cons.
    + destruct (IH (c :: cur)) as (lines & rest & Hgo & Hlines & Hrest & Hcat).
      { cbn [rev]. by apply noNewline_snoc. }
      exists lines, rest. rewrite Hgo, Hcat. split; [done|]. split; [done|].
      split; [done|]. apply string_of_rev_cons.
Qed.

(** X4. The read loop sees every byte of its input once and in order: the
    results of [ReadString] put end to end are the data; all of them but
    the last are lines, each ended by its only newline, and the last (what
    comes with the error) has no newline. There is always this last
    result, so that the body of the loop runs at least once. *)
Theorem X4_read_loop_partitions_data (data : string) :
  ∃ lines rest,
    readStrings data = (lines ++ [rest])%list
    ∧ Forall isLine lines
    ∧ noNewline rest = true
    ∧ foldr String.append "" (readStrings data) = data.
Proof.
  destruct (readStrings_go_lines data [] eq_refl)
    as (lines & rest & Hgo & Hlines & Hrest & Hcat).
  exists lines, rest. unfold readStrings. rewrite Hgo. by rewrite Hcat.
Qed.

(** ** Reading the live file again and again *)

Lemma length_dropBytes (s : string) : ∀ n,
  String.length (dropBytes n s) = (String.length s - n)%nat.
Proof.
  induction s as [|c s IH]; intros [|n]; cbn [dropBytes String.length];
    try done; try lia.
Qed.

Lemma dropBytes_append (old more : string) :
  dropBytes (String.length old) (old ++ more) = more.
Proof. induction old as [|c old IH]; [done|]. exact IH. Qed.

Lemma dropBytes_all (s : string) : dropBytes (String.length s) s = "".
Proof.
  rewrite <- (append_nil_r s) at 2. apply dropBytes_append.
Qed.

Lemma plainReadable_setBytes (e : env) (logfile : string) (logf : file)
    (bytes : string) :
  plainReadable e logfile logf →
  plainReadable e logfile (setBytes logf bytes)
  ∧ dateOf e logfile (setBytes logf bytes) = dateOf e logfile logf.
Proof. intros H. split; exact H || reflexivity. Qed.

(** What a read of a plain file without failure comes to. *)
Lemma readLog_plain (e : env) (logfile : string) (logf : file) (pos : Z) :
  plainReadable e logfile logf → 0 <= pos →
  let start := if fileSize logf <? pos then 0 else pos in
  readLog e logfile logf pos
  = (Open logfile
       :: Stdout ("Starting read at offset " ++ itoa start ++ "
")
       :: (Send <$> eventsIn e (dateOf e logfile logf)
                      (dropBytes (Z.to_nat start) (f_bytes logf))),
     None, fileSize logf).
Proof.
  intros (Hext & Hopen & Hstat & Htell & Hdate) Hpos start.
  unfold readLog. rewrite Hopen, (getLogReader_plain logfile logf pos Hext Hstat).
  fold start. unfold dateOf.
  destruct (resolveDate e logfile logf) as [date err]. cbn [fst snd] in *.
  subst err. unfold readLoop. cbn [r_data r_off r_end].
  rewrite decide_True by done. rewrite Htell. unfold eventsIn.
  f_equal. rewrite length_dropBytes. unfold fileSize in *.
  assert (0 <= start <= Z.of_nat (String.length (f_bytes logf))).
  { subst start. destruct (Z.ltb_spec (Z.of_nat (String.length (f_bytes logf))) pos); lia. }
  lia.
Qed.

(** X5. After a read of a plain file without failure the cursor [pos] is
    the size of the file, wherever it was before: within the file, at its
    end, or beyond it. *)
Theorem X5_cursor_ends_at_file_size (e : env) (logfile : string)
    (logf : file) (pos : Z) :
  plainReadable e logfile logf → 0 <= pos →
  (readLog e logfile logf pos).2 = fileSize logf
  ∧ (readLog e logfile logf pos).1.2 = None.
Proof.
  intros Hok Hpos. by rewrite (readLog_plain e logfile logf pos Hok Hpos).
Qed.

Lemma X5_cursor_ends_at_file_size_witness :
  (readLog est "logs/latest.log" (plainFile (blank 200)) 150).2 = 200
  ∧ (readLog est "logs/latest.log" (plainFile (blank 200)) 150).1.2 = None.
Proof.
  apply (X5_cursor_ends_at_file_size est "logs/latest.log"
           (plainFile (blank 200)) 150).
  - repeat split; vm_compute; congruence.
  - lia.
Defined.

(** X6. Reading a plain file again when nothing was added to it sends no
    event and leaves the cursor at the end of the file. *)
Theorem X6_unchanged_file_sends_nothing (e : env) (logfile : string)
    (logf : file) :
  plainReadable e logfile logf →
  sent (readLog e logfile logf (fileSize logf)).1.1 = []
  ∧ (readLog e logfile logf (fileSize logf)).2 = fileSize logf.
Proof.
  intros Hok.
  rewrite (readLog_plain e logfile logf (fileSize logf) Hok)
    by (unfold fileSize; lia).
  rewrite Z.ltb_irrefl. unfold fileSize. rewrite Nat2Z.id, dropBytes_all.
  done.
Qed.

Lemma X6_unchanged_file_sends_nothing_witness :
  sent (readLog est "logs/latest.log" (plainFile (steveLine ++ "
")) 85).1.1 = []
  ∧ (readLog est "logs/latest.log" (plainFile (steveLine ++ "
")) 85).2 = 85.
Proof.
  apply (X6_unchanged_file_sends_nothing est "logs/latest.log"
           (plainFile (steveLine ++ "
"))).
  repeat split; vm_compute; congruence.
Defined.

(** X7. When the size of a plain file is below the cursor, the read sends
    the events of the whole file, those already sent before included,
    and the cursor is the new size afterwards. *)
Theorem X7_truncated_file_is_sent_again (e : env) (logfile : string)
    (logf : file) (pos : Z) :
  plainReadable e logfile logf → fileSize logf < pos →
  sent (readLog e logfile logf pos).1.1
  = eventsIn e (dateOf e logfile logf) (f_bytes logf)
  ∧ (readLog e logfile logf pos).2 = fileSize logf.
Proof.
  intros Hok Hlt.
  rewrite (readLog_plain e logfile logf pos Hok) by (unfold fileSize in *; lia).
  apply Z.ltb_lt in Hlt. rewrite Hlt. cbn [fst snd sent omap list_omap sentEvent].
  fold (sent (Send <$> eventsIn e (dateOf e logfile logf)
                         (dropBytes (Z.to_nat 0) (f_bytes logf)))).
  by rewrite sent_sends.
Qed.

Lemma X7_truncated_file_is_sent_again_witness :
  sent (readLog est "logs/latest.log" (plainFile (steveLine ++ "
")) 500).1.1
  = eventsIn est (dateOf est "logs/latest.log" (plainFile (steveLine ++ "
"))) (steveLine ++ "
")
  ∧ (readLog est "logs/latest.log" (plainFile (steveLine ++ "
")) 500).2 = 85.
Proof.
  apply (X7_truncated_file_is_sent_again est "logs/latest.log"
           (plainFile (steveLine ++ "
")) 500).
  - repeat split; vm_compute; congruence.
  - vm_compute. reflexivity.
Defined.

Lemma readStrings_go_boundary (front : string) : ∀ cur,
  ∃ lines,
    readStrings_go cur (front ++ String newline "") = (lines ++ [""])%list
    ∧ ∀ more, readStrings_go cur ((front ++ String newline "") ++ more)
              = (lines ++ readStrings_go [] more)%list.
Proof.
  induction front as [|c front IH]; intros cur.
  - exists [string_of_list_ascii (rev (newline :: cur))]. split; [done|].
    intros more. done.
  - rewrite !append_cons. cbn [readStrings_go].
    destruct (byte_eqb c newline) eqn:Hc.
    + destruct (IH []) as (lines & Hgo & Hmore).
      exists (string_of_list_ascii (rev (c :: cur)) :: lines).
      rewrite Hgo. split; [done|]. intros more.
      rewrite append_cons. cbn [readStrings_go]. by rewrite Hc, Hmore.
    + destruct (IH (c :: cur)) as (lines & Hgo & Hmore).
      exists lines. split; [done|]. intros more.
      rewrite append_cons. cbn [readStrings_go]. by rewrite Hc, Hmore.
Qed.

Lemma extractLine_empty (e : env) (date : string) : extractLine e date "" = None.
Proof. reflexivity. Qed.

(** The events of a text that stops where a line stops and of what
    follows it are the events of the two put together. *)
Lemma eventsIn_append (e : env) (date old more : string) :
  endsLine old →
  eventsIn e date (old ++ more)
  = (eventsIn e date old ++ eventsIn e date more)%list.
Proof.
  unfold eventsIn, readStrings. intros [->|[front ->]].
  - change ("" ++ more) with more. cbn [readStrings_go omap list_omap].
    by rewrite extractLine_empty.
  - destruct (readStrings_go_boundary front []) as (lines & Hgo & Hmore).
    rewrite Hmore, Hgo, !omap_app. cbn [omap list_omap].
    by rewrite extractLine_empty, app_nil_r.
Qed.

Lemma length_app_string (a b : string) :
  String.length (a ++ b) = (String.length a + String.length b)%nat.
Proof.
  induction a as [|c a IH]; [done|]. rewrite append_cons.
  cbn [String.length]. by rewrite IH.
Qed.

Lemma sent_readLog_plain (e : env) (logfile : string) (logf : file) (pos : Z) :
  plainReadable e logfile logf → 0 <= pos →
  sent (readLog e logfile logf pos).1.1
  = eventsIn e (dateOf e logfile logf)
      (dropBytes (Z.to_nat (if fileSize logf <? pos then 0 else pos))
                 (f_bytes logf)).
Proof.
  intros Hok Hpos. rewrite (readLog_plain e logfile logf pos Hok Hpos).
  cbn [fst snd]. unfold sent at 1. cbn [omap list_omap sentEvent].
  apply sent_sends.
Qed.

(** X8. Tailing loses nothing at the end of a line: when the live file has
    grown from [old], which stops where a line stops, to [old ++ more],
    the read that follows sends the events of [more] and nothing else, and
    the two reads together send what one read of the grown file from its
    start sends. *)
Theorem X8_growing_file_read_in_parts (e : env) (logfile : string)
    (logf : file) (old more : string) :
  plainReadable e logfile logf → endsLine old →
  let first := readLog e logfile (setBytes logf old) 0 in
  let second := readLog e logfile (setBytes logf (old ++ more)) first.2 in
  let whole := readLog e logfile (setBytes logf (old ++ more)) 0 in
  first.2 = Z.of_nat (String.length old)
  ∧ sent second.1.1 = eventsIn e (dateOf e logfile logf) more
  ∧ (sent first.1.1 ++ sent second.1.1)%list = sent whole.1.1
  ∧ second.2 = whole.2.
Proof.
  intros Hok Hold first second whole.
  destruct (plainReadable_setBytes e logfile logf old Hok) as [Hok1 Hd1].
  destruct (plainReadable_setBytes e logfile logf (old ++ more) Hok) as [Hok2 Hd2].
  assert (Hfirst : first.2 = Z.of_nat (String.length old)).
  { subst first. by rewrite (readLog_plain _ _ _ 0 Hok1). }
  assert (Hsecond : sent second.1.1 = eventsIn e (dateOf e logfile logf) more).
  { subst second. rewrite Hfirst, sent_readLog_plain by (done || lia).
    rewrite Hd2. unfold fileSize. cbn [setBytes f_bytes].
    rewrite length_app_string.
    destruct (Z.ltb_spec (Z.of_nat (String.length old + String.length more))
                         (Z.of_nat (String.length old))); [lia|].
    by rewrite Nat2Z.id, dropBytes_append. }
  split; [done|]. split; [done|]. split.
  - rewrite Hsecond. subst first whole.
    rewrite !sent_readLog_plain by (done || lia). rewrite Hd1, Hd2.
    unfold fileSize. cbn [setBytes f_bytes].
    destruct (Z.ltb_spec (Z.of_nat (String.length old)) 0); [lia|].
    destruct (Z.ltb_spec (Z.of_nat (String.length (old ++ more))) 0); [lia|].
    change (Z.to_nat 0) with 0%nat. cbn [dropBytes]. by rewrite eventsIn_append.
  - subst second whole. rewrite Hfirst.
    by rewrite !(readLog_plain _ _ _ _ Hok2) by lia.
Qed.

Lemma X8_growing_file_read_in_parts_witness :
  let old := steveLine ++ "
" in
  let first := readLog est "logs/latest.log" (setBytes (plainFile "") old) 0 in
  let second := readLog est "logs/latest.log"
                  (setBytes (plainFile "") (old ++ lateLine)) first.2 in
  let whole := readLog est "logs/latest.log"
                 (setBytes (plainFile "") (old ++ lateLine)) 0 in
  first.2 = Z.of_nat (String.length old)
  ∧ sent second.1.1
    = eventsIn est (dateOf est "logs/latest.log" (plainFile "")) lateLine
  ∧ (sent first.1.1 ++ sent second.1.1)%list = sent whole.1.1
  ∧ second.2 = whole.2.
Proof.
  apply (X8_growing_file_read_in_parts est "logs/latest.log" (plainFile "")
           (steveLine ++ "
") lateLine).
  - repeat split; vm_compute; congruence.
  - right. exists steveLine. reflexivity.
Defined.

(** X9. A file with no date in its path whose [os.Stat] fails is opened
    and not read: the error of [os.Stat] stays in [err], the read loop
    does not start, no event is sent, [readLog] returns [nil], and the
    cursor of a plain file stays where the read would have started. *)
Theorem X9_stat_failure_skips_the_lines (e : env) (logfile : string)
    (logf : file) (pos : Z) (err : error) :
  matchFirst datere logfile = None → f_mtime logf = inl err →
  f_open logf = None → f_gzip logf = None → f_stat logf = None →
  f_tell logf = None →
  sent (readLog e logfile logf pos).1.1 = []
  ∧ (readLog e logfile logf pos).1.2 = None
  ∧ (readLog e logfile logf pos).2
    = if decide (Ext logfile = gzipext) then pos
      else if fileSize logf <? pos then 0 else pos.
Proof.
  intros Hdate Hmtime Hopen Hgz Hstat Htell.
  unfold readLog, getLogReader, resolveDate, readLoop.
  rewrite Hopen, Hgz, Hstat, Htell, Hdate, Hmtime.
  destruct (decide (Ext logfile = gzipext)) as [Hext|Hext].
  - by rewrite decide_False by (intros Hne; done).
  - rewrite decide_True by done. cbn [r_off fst snd].
    split; [done|]. split; [done|]. lia.
Qed.

Lemma X9_stat_failure_skips_the_lines_witness :
  sent (readLog est "logs/latest.log"
          (File None None None (steveLine ++ "
") eof (inl (OSError "stat: no such file")) None) 0).1.1 = [].
Proof.
  apply (X9_stat_failure_skips_the_lines est "logs/latest.log"
           (File None None None (steveLine ++ "
") eof (inl (OSError "stat: no such file")) None) 0
           (OSError "stat: no such file")); reflexivity.
Defined.

(** ** The two passes of [Mcwho] *)

Lemma readLog_gz_pos (e : env) (logfile : string) (logf : file) (pos : Z) :
  Ext logfile = gzipext → (readLog e logfile logf pos).2 = pos.
Proof.
  intros Hext. unfold readLog, getLogReader. destruct (f_open logf); [done|].
  rewrite decide_True by done. destruct (f_gzip logf); [done|].
  destruct (resolveDate e logfile logf) as [date err].
  destruct (readLoop e date _ err) as [[sends taken] err'].
  by rewrite decide_False by (intros Hne; done).
Qed.

(** X10. The first pass does not move the cursor of the live file: reading
    archives leaves [pos] as it was, however many there are and whether
    or not one of them fails, so that the first read of [latest.log]
    starts where [pos] stood at the start. *)
Theorem X10_first_pass_keeps_cursor (e : env) (logPath : string) (w : world)
    (files : list string) (pos : Z) :
  Forall (λ file, noSlash file = true) files →
  (backfill e logPath w files pos).2 = pos.
Proof.
  intros Hfiles. revert pos.
  induction Hfiles as [|file files Hfile Hfiles IH]; intros pos; [done|].
  cbn [backfill]. destruct (decide (Ext file ≠ gzipext)) as [Hext|Hext]; [apply IH|].
  assert (Hgz : Ext file = gzipext) by (by destruct (decide (Ext file = gzipext))).
  pose proof (readLog_gz_pos e (Join logPath file) (w_file w (Join logPath file))
                pos (Ext_Join_gz logPath file Hfile Hgz)) as Hpos.
  destruct (readLog e (Join logPath file) (w_file w (Join logPath file)) pos)
    as [[tr err] pos1]. cbn [snd] in Hpos. subst pos1.
  destruct err as [err|]; [done|]. specialize (IH pos).
  by destruct (backfill e logPath w files pos) as [[tr' ret] pos2].
Qed.

Lemma X10_first_pass_keeps_cursor_witness :
  (backfill est "logs" dated
     ["2014-03-01-1.log.gz"; "2014-03-02-1.log.gz"; "latest.log"] 42).2 = 42.
Proof.
  apply (X10_first_pass_keeps_cursor est "logs" dated).
  repeat constructor.
Defined.

Lemma sentErrs_app (tr1 tr2 : list action) :
  sentErrs (tr1 ++ tr2) = (sentErrs tr1 ++ sentErrs tr2)%list.
Proof. apply omap_app. Qed.

Lemma sentErrs_sends (evs : list event) : sentErrs (Send <$> evs) = [].
Proof. induction evs as [|ev evs IH]; [done|]. exact IH. Qed.

Lemma readLog_plain_sentErrs (e : env) (logfile : string) (logf : file)
    (pos : Z) :
  plainReadable e logfile logf → 0 <= pos →
  (readLog e logfile logf pos).1.2 = None
  ∧ (readLog e logfile logf pos).2 = fileSize logf
  ∧ sentErrs (readLog e logfile logf pos).1.1 = [].
Proof.
  intros Hok Hpos. rewrite (readLog_plain e logfile logf pos Hok Hpos).
  split; [done|]. split; [done|]. cbn [fst]. unfold sentErrs at 1.
  cbn [omap list_omap sentError]. apply sentErrs_sends.
Qed.

(** X11. An error of the watcher does not end the tailing: as long as the
    live file reads without failure, the goroutine reads it once for each
    signal, sends each error of the watcher on the error channel, in
    order, and is waiting for the next signal at the end; it does not
    return. *)
Theorem X11_watcher_errors_do_not_end_tailing (e : env) (logFile : string)
    (rounds : list (file * wsignal)) (pos : Z) :
  Forall (λ round, plainReadable e logFile round.1) rounds → 0 <= pos →
  (tail e logFile rounds pos).1.2 = Waiting
  ∧ opens (tail e logFile rounds pos).1.1 = replicate (length rounds) logFile
  ∧ sentErrs (tail e logFile rounds pos).1.1 = omap signalError rounds.*2.
Proof.
  intros Hrounds. revert pos.
  induction Hrounds as [|[logf sig] rounds Hok Hrounds IH]; intros pos Hpos;
    [done|].
  cbn [tail]. cbn [fst] in Hok.
  pose proof (readLog_opens e logFile logf pos) as Hopen.
  destruct (readLog_plain_sentErrs e logFile logf pos Hok Hpos)
    as (Herr & Hsize & Hnone).
  destruct (readLog e logFile logf pos) as [[tr err] pos1].
  cbn [fst snd] in Hopen, Herr, Hsize, Hnone. subst err pos1.
  destruct (IH (fileSize logf)) as (Hst & Hopens & Herrs);
    [unfold fileSize; lia|].
  destruct (tail e logFile rounds (fileSize logf)) as [[tr' st] pos'].
  cbn [fst snd] in Hst, Hopens, Herrs.
  destruct sig as [|err]; cbn [fst snd].
  - rewrite opens_app, Hopen, Hopens, sentErrs_app, Hnone, Herrs. done.
  - rewrite opens_app, opens_cons, Hopen, Hopens, sentErrs_app, Hnone.
    split; [done|]. split; [done|]. cbn [app].
    unfold sentErrs at 1. cbn [omap list_omap sentError].
    fold (sentErrs tr'). by rewrite Herrs.
Qed.

Lemma X11_watcher_errors_do_not_end_tailing_witness :
  (tail est "logs/latest.log"
     [(plainFile "", WError (OSError "overflow")); (plainFile "", WEvent)] 0).1.2
  = Waiting
  ∧ opens (tail est "logs/latest.log"
     [(plainFile "", WError (OSError "overflow")); (plainFile "", WEvent)] 0).1.1
    = replicate 2 "logs/latest.log"
  ∧ sentErrs (tail est "logs/latest.log"
     [(plainFile "", WError (OSError "overflow")); (plainFile "", WEvent)] 0).1.1
    = [OSError "overflow"].
Proof.
  apply (X11_watcher_errors_do_not_end_tailing est "logs/latest.log"
    [(plainFile "", WError (OSError "overflow")); (plainFile "", WEvent)] 0).
  - repeat constructor; vm_compute; congruence.
  - lia.
Defined.

Lemma readLog_notFatal (e : env) (logfile : string) (logf : file) (pos : Z) :
  Forall notFatal (readLog e logfile logf pos).1.1.
Proof.
  unfold readLog. destruct (f_open logf); [by repeat constructor|].
  assert (Hout : Forall notFatal (getLogReader logfile logf pos).1.1).
  { unfold getLogReader. destruct (decide (Ext logfile = gzipext)).
    - destruct (f_gzip logf); constructor.
    - destruct (f_stat logf); by repeat constructor. }
  destruct (getLogReader logfile logf pos) as [[out [err|rdr]] pos'];
    cbn [fst] in Hout.
  - by constructor.
  - destruct (resolveDate e logfile logf) as [date err].
    assert (Hsends : Forall notFatal (readLoop e date rdr err).1.1).
    { unfold readLoop. destruct err; [constructor|]. cbn [fst].
      apply Forall_fmap, Forall_true. done. }
    destruct (readLoop e date rdr err) as [[sends taken] err'].
    cbn [fst] in Hsends.
    assert (Forall notFatal (Open logfile :: out ++ sends)).
    { constructor; [done|]. by apply Forall_app. }
    destruct (decide (Ext logfile ≠ gzipext)); [|done].
    by destruct (f_tell logf).
Qed.

Lemma backfill_notFatal (e : env) (logPath : string) (w : world)
    (files : list string) : ∀ pos,
  Forall notFatal (backfill e logPath w files pos).1.1.
Proof.
  induction files as [|file files IH]; intros pos; [constructor|].
  cbn [backfill]. destruct (decide (Ext file ≠ gzipext)); [apply IH|].
  pose proof (readLog_notFatal e (Join logPath file)
                (w_file w (Join logPath file)) pos) as Hread.
  destruct (readLog e (Join logPath file) (w_file w (Join logPath file)) pos)
    as [[tr err] pos1]. cbn [fst] in Hread.
  destruct err as [err|].
  - cbn [fst]. apply Forall_app. split; [by constructor|by repeat constructor].
  - specialize (IH pos1).
    destruct (backfill e logPath w files pos1) as [[tr' ret] pos2].
    cbn [fst] in *. apply Forall_app. split; [by constructor|done].
Qed.

Lemma tail_notFatal (e : env) (logFile : string)
    (rounds : list (file * wsignal)) : ∀ pos,
  Forall notFatal (tail e logFile rounds pos).1.1
  ∧ (tail e logFile rounds pos).1.2 ≠ Exited.
Proof.
  induction rounds as [|[logf sig] rounds IH]; intros pos; [by split|].
  cbn [tail]. pose proof (readLog_notFatal e logFile logf pos) as Hread.
  destruct (readLog e logFile logf pos) as [[tr err] pos1]. cbn [fst] in Hread.
  destruct err as [err|].
  - split; [|done]. cbn [fst]. apply Forall_app. split; [done|by repeat constructor].
  - destruct (IH pos1) as [Htr Hst].
    destruct (tail e logFile rounds pos1) as [[tr' st] pos2]. cbn [fst snd] in *.
    destruct sig as [|err]; cbn [fst snd]; (split; [|done]); apply Forall_app;
      (split; [done|]); [done|by constructor].
Qed.

(** X12. The ways [Mcwho] ends. The process is ended by [log.Fatal] exactly
    when the watch cannot be set up, and then [log.Fatal] is all that
    happens; in every other run [log.Fatal] is not called. When [Mcwho]
    returns, the last thing it did was to send an error on the error
    channel. *)
Theorem X12_how_Mcwho_ends (e : env) (logPath : string) (w : world)
    (rounds : list (file * wsignal)) (pos : Z) :
  let run := Mcwho e logPath w rounds pos in
  (run.1.2 = Exited ↔ is_Some (w_watch w (Join logPath "latest.log")))
  ∧ (∀ err, w_watch w (Join logPath "latest.log") = Some err →
       run.1.1 = [Fatal err])
  ∧ (w_watch w (Join logPath "latest.log") = None → Forall notFatal run.1.1)
  ∧ (run.1.2 = Returned → ∃ tr err, run.1.1 = (tr ++ [SendErr err])%list).
Proof.
  intros run. split; [|split; [|split]]; [..|apply Mcwho_returns_after_SendErr];
    subst run; unfold Mcwho, setupWatcher;
    destruct (w_watch w (Join logPath "latest.log")) as [werr|] eqn:Hwatch.
  - split; [by eexists|done].
  - split; [|by intros [? ?]].
    destruct (w_readdir w) as [err|names]; [done|].
    destruct (backfill e logPath w (ReadDir names) pos) as [[tr1 ret] pos1].
    destruct ret; [done|].
    pose proof (tail_notFatal e (Join logPath "latest.log") rounds pos1) as [_ Hst].
    by destruct (tail e (Join logPath "latest.log") rounds pos1) as [[tr2 st] pos2].
  - by intros err [= ->].
  - done.
  - done.
  - intros _. destruct (w_readdir w) as [err|names]; [by repeat constructor|].
    pose proof (backfill_notFatal e logPath w (ReadDir names) pos) as Hb.
    destruct (backfill e logPath w (ReadDir names) pos) as [[tr1 ret] pos1].
    cbn [fst] in Hb. destruct ret; [by rewrite app_nil_l|].
    pose proof (tail_notFatal e (Join logPath "latest.log") rounds pos1) as [Ht _].
    destruct (tail e (Join logPath "latest.log") rounds pos1) as [[tr2 st] pos2].
    cbn [fst] in *. rewrite app_nil_l. by apply Forall_app.
Qed.

(** ** The display *)

(** X14. The duration stops at the greatest [int64]: for a time that lies
    [2^63 - 1] nanoseconds (some 292 years) or more before now, the text
    is ["106751d 23h 47m"] whatever the distance; a player with such a
    login time, as the zero time of a login whose time did not parse, is
    shown as on for that long. *)
Theorem X14_duration_saturates (now ts : Time) :
  maxInt64 <= now - ts →
  getHowLong now ts = ("106751d 23h 47m", None)
  ∧ ∀ u offs,
      getDisplay now [Mcuser u ts] offs
      = "1 player: " ++ u ++ " on for 106751d 23h 47m".
Proof.
  intros Hfar.
  assert (Hlong : getHowLong now ts = ("106751d 23h 47m", None)).
  { unfold getHowLong.
    assert (Sub now ts = maxInt64) as ->.
    { unfold Sub. destruct (Z.ltb_spec (now - ts) minInt64) as [Hlt|_].
      - unfold minInt64, maxInt64 in *. lia.
      - destruct (Z.ltb_spec maxInt64 (now - ts)); [done|lia]. }
    by vm_compute. }
  split; [done|]. intros u offs.
  rewrite getDisplay_one. cbn [name since]. by rewrite Hlong.
Qed.

Lemma X14_duration_saturates_witness :
  getHowLong (Date 2014 3 2 12 1 15 0 0) zeroTime = ("106751d 23h 47m", None)
  ∧ ∀ u offs,
      getDisplay (Date 2014 3 2 12 1 15 0 0) [Mcuser u zeroTime] offs
      = "1 player: " ++ u ++ " on for 106751d 23h 47m".
Proof.
  apply (X14_duration_saturates (Date 2014 3 2 12 1 15 0 0) zeroTime).
  vm_compute. discriminate.
Defined.

(** X15. With at least one player on, the offline table plays no part in
    the display: the header is ["1 player: "] for one player and the count
    followed by [" players: "] for more, and the players follow in the
    order the [range] visits them, separated by [", "]. *)
Theorem X15_players_on_display (now : Time) (user : mcuser)
    (ons offs : list mcuser) :
  getDisplay now (user :: ons) offs
  = (if decide (ons = []) then "1 player: "
     else itoa (Z.of_nat (S (length ons))) ++ " players: ")
    ++ strings_Join (playerInfo now <$> (user :: ons)) ", "
  ∧ getDisplay now (user :: ons) offs = getDisplay now (user :: ons) [].
Proof.
  assert (Hinfo : ∀ l : list mcuser,
            ((λ u, let '(howLong, _) := getHowLong now (since u) in
                   name u ++ " on for " ++ howLong) <$> l)
            = playerInfo now <$> l).
  { intros l. apply list_fmap_ext. intros _ u _. unfold playerInfo.
    by destruct (getHowLong now (since u)). }
  assert (Hshape : ∀ offs',
            getDisplay now (user :: ons) offs'
            = (if decide (ons = []) then "1 player: "
               else itoa (Z.of_nat (S (length ons))) ++ " players: ")
              ++ strings_Join (playerInfo now <$> (user :: ons)) ", ").
  { intros offs'. unfold getDisplay. rewrite Hinfo. cbn [length].
    destruct (Z.ltb_spec (Z.of_nat (S (length ons))) 1) as [Hlt|_]; [lia|].
    destruct ons as [|user' ons'].
    - by rewrite decide_True.
    - rewrite decide_False by done. cbn [length].
      destruct (Z.eqb_spec (Z.of_nat (S (S (length ons')))) 1); [lia|done]. }
  split; [apply Hshape|]. by rewrite !Hshape.
Qed.

Lemma lastSeen_unique (offs1 offs2 : list mcuser) :
  offs1 ≡ₚ offs2 →
  (∀ u v, u ∈ offs1 → v ∈ offs1 → since u = since v → u = v) →
  lastSeen offs1 = lastSeen offs2.
Proof.
  intros Hperm Hinj.
  assert (Hmem : ∀ x, x ∈ offs1 ↔ x ∈ offs2) by (intros x; by rewrite Hperm).
  destruct (lastSeen_spec offs1) as [Hall1 Hlast1].
  destruct (lastSeen_spec offs2) as [Hall2 Hlast2].
  destruct Hlast1 as [Hz1|[Hin1 Hpos1]], Hlast2 as [Hz2|[Hin2 Hpos2]].
  - by rewrite Hz1, Hz2.
  - apply Hmem in Hin2. specialize (Hall1 _ Hin2).
    rewrite Hz1 in Hall1. cbn in Hall1. unfold zeroTime in Hall1. lia.
  - apply Hmem in Hin1. specialize (Hall2 _ Hin1).
    rewrite Hz2 in Hall2. cbn in Hall2. unfold zeroTime in Hall2. lia.
  - apply Hinj; [done|by apply Hmem|].
    pose proof (Hall1 (lastSeen offs2) (proj2 (Hmem _) Hin2)) as H12.
    pose proof (Hall2 (lastSeen offs1) (proj1 (Hmem _) Hin1)) as H21. lia.
Qed.

(** X16. With nobody on, the display does not depend on the order in
    which the [range] visits the offline table, provided no two of its
    records carry the same time. *)
Theorem X16_no_players_display_order (now : Time) (off : userList)
    (offs1 offs2 : list mcuser) :
  rangeOf off offs1 → rangeOf off offs2 →
  (∀ k1 k2 u v, off !! k1 = Some u → off !! k2 = Some v →
     since u = since v → u = v) →
  getDisplay now [] offs1 = getDisplay now [] offs2.
Proof.
  intros H1 H2 Hinj. rewrite !getDisplay_nobody_on.
  assert (lastSeen offs1 = lastSeen offs2) as ->; [|done].
  apply lastSeen_unique.
  - unfold rangeOf in *. by rewrite H1, H2.
  - intros u v Hu Hv. apply (rangeOf_elem off offs1 u H1) in Hu as [k1 Hu].
    apply (rangeOf_elem off offs1 v H1) in Hv as [k2 Hv]. by apply (Hinj k1 k2).
Qed.

Lemma X16_no_players_display_order_witness :
  getDisplay 500 [] [Mcuser "b" 7; Mcuser "a" 5]
  = getDisplay 500 [] [Mcuser "a" 5; Mcuser "b" 7].
Proof.
  apply (X16_no_players_display_order 500
           (<["a" := Mcuser "a" 5]> {["b" := Mcuser "b" 7]})).
  - unfold rangeOf. rewrite map_to_list_insert by done.
    rewrite map_to_list_singleton. apply perm_swap.
  - unfold rangeOf. rewrite map_to_list_insert by done.
    by rewrite map_to_list_singleton.
  - intros k1 k2 u v Hu Hv.
    apply lookup_insert_Some in Hu as [[_ <-]|[_ Hu]];
      [|apply lookup_singleton_Some in Hu as [_ <-]];
      (apply lookup_insert_Some in Hv as [[_ <-]|[_ Hv]];
        [|apply lookup_singleton_Some in Hv as [_ <-]]);
      cbn; intros Heq; done || lia.
Defined.

(** ** The lines that give events *)

Lemma rep_sound (cls : ascii → bool)
    (k : string → mstate → option (list string)) (s : string) :
  ∀ st r, rep cls k s st = Some r →
  ∃ taken rest,
    s = string_of_list_ascii taken ++ rest
    ∧ forallb cls taken = true
    ∧ k rest (eatAll taken st) = Some r.
Proof.
  induction s as [|c s IH]; intros st r; cbn [rep].
  - intros Hk. by exists [], "".
  - destruct (cls c) eqn:Hc; [|intros Hk; by exists [], (String c s)].
    destruct (rep cls k s (eat c st)) as [r'|] eqn:Hrep.
    + intros [= ->]. destruct (IH _ _ Hrep) as (taken & rest & -> & Hall & Hk).
      exists (c :: taken), rest. cbn [forallb eatAll string_of_list_ascii].
      by rewrite Hc, Hall.
    + intros Hk. by exists [], (String c s).
Qed.

Lemma matchHere_sound (p : regex) : ∀ s st r,
  matchHere p s st = Some r → shape p s st r.
Proof.
  induction p as [|[c|cls|cls| |] p IH]; intros s st r; cbn [matchHere shape].
  - by intros [= <-].
  - destruct s as [|d s]; [done|]. destruct (byte_eqb c d) eqn:Hcd; [|done].
    apply Ascii.eqb_eq in Hcd as ->. intros Hm. exists s. split; [done|].
    by apply IH.
  - intros Hrep. destruct (rep_sound cls _ _ _ _ Hrep) as (taken & rest & -> & Hall & Hk).
    exists taken, rest. split; [done|]. split; [done|]. by apply IH.
  - destruct s as [|d s]; [done|]. destruct (cls d) eqn:Hd; [|done].
    intros Hrep. destruct (rep_sound cls _ _ _ _ Hrep) as (taken & rest & -> & Hall & Hk).
    exists d, taken, rest. split; [done|]. split; [done|]. split; [done|].
    by apply IH.
  - apply IH.
  - apply IH.
Qed.

Lemma eatAll_state (taken : list ascii) : ∀ st,
  eatAll taken st
  = MState (caps st) ((λ l, rev taken ++ l)%list <$> cur st).
Proof.
  induction taken as [|c taken IH]; intros [cs [l|]]; cbn [eatAll];
    [done|done|rewrite IH; cbn; by rewrite <- app_assoc|by rewrite IH].
Qed.

Lemma allOf_cons (cls : ascii → bool) (d : ascii) (taken : list ascii) :
  cls d = true → forallb cls taken = true →
  allOf cls (String d (string_of_list_ascii taken)) = true.
Proof.
  intros Hd Hall. unfold allOf. cbn [list_ascii_of_string forallb].
  by rewrite list_ascii_of_string_of_list_ascii, Hd, Hall.
Qed.

(** The head of a line that matches either pattern. *)
Lemma login_shape (line : string) (matches : list string) :
  matchAnchored logonre line = Some matches →
  ∃ tod mid user meta rest,
    matches = [tod; user]
    ∧ tod ≠ "" ∧ allOf cls_tod tod = true
    ∧ user ≠ "" ∧ allOf cls_nonspace user = true
    ∧ allOf cls_any mid = true ∧ allOf cls_any meta = true
    ∧ line = "[" ++ tod ++ "] [" ++ mid ++ "]: " ++ user ++ "[" ++ meta
             ++ "] logged in with entity id" ++ rest.
Proof.
  intros Hm. apply matchHere_sound in Hm.
  cbv beta iota delta [logonre lits app fmap list_fmap list_ascii_of_string shape] in Hm.
  repeat match type of Hm with
         | ∃ _, _ => destruct Hm as [? Hm]
         | _ ∧ _ => let H := fresh "H" in destruct Hm as [H Hm]
         end.
  rewrite !eatAll_state in Hm.
  cbn [eat openGroup closeGroup caps cur fmap option_fmap option_map default rev app] in Hm.
  unfold id in Hm. rewrite !rev_app_distr, !rev_involutive in Hm.
  cbn [rev app string_of_list_ascii] in Hm. subst.
  do 5 eexists. split_and!.
  1: reflexivity.
  7: reflexivity.
  - done.
  - by apply allOf_cons.
  - done.
  - by apply allOf_cons.
  - unfold allOf. by rewrite list_ascii_of_string_of_list_ascii.
  - unfold allOf. by rewrite list_ascii_of_string_of_list_ascii.
Qed.

Lemma logout_shape (line : string) (matches : list string) :
  matchAnchored logoutre line = Some matches →
  ∃ tod mid user rest,
    matches = [tod; user]
    ∧ tod ≠ "" ∧ allOf cls_tod tod = true
    ∧ user ≠ "" ∧ allOf cls_nonspace user = true
    ∧ allOf cls_any mid = true
    ∧ line = "[" ++ tod ++ "] [" ++ mid ++ "]: " ++ user
             ++ " lost connection:" ++ rest.
Proof.
  intros Hm. apply matchHere_sound in Hm.
  cbv beta iota delta [logoutre lits app fmap list_fmap list_ascii_of_string shape] in Hm.
  repeat match type of Hm with
         | ∃ _, _ => destruct Hm as [? Hm]
         | _ ∧ _ => let H := fresh "H" in destruct Hm as [H Hm]
         end.
  rewrite !eatAll_state in Hm.
  cbn [eat openGroup closeGroup caps cur fmap option_fmap option_map default rev app] in Hm.
  unfold id in Hm. rewrite !rev_app_distr, !rev_involutive in Hm.
  cbn [rev app string_of_list_ascii] in Hm. subst.
  do 4 eexists. split_and!.
  1: reflexivity.
  6: reflexivity.
  - done.
  - by apply allOf_cons.
  - done.
  - by apply allOf_cons.
  - unfold allOf. by rewrite list_ascii_of_string_of_list_ascii.
Qed.

(** X17. What a line that gives an event looks like. The line starts with
    a bracketed time of digits and colons, a second bracket ended by
    ["]: "], and a name that is not empty and holds no white space; the
    name is the user of the event, and the instant is what [parseSince]
    makes of the date and the time. For a login the name is followed by a
    bracket and ["] logged in with entity id"], for a logout by
    [" lost connection:"]. Nothing else gives an event. *)
Theorem X17_lines_that_give_events (e : env) (date line : string) (ev : event) :
  extractLine e date line = Some ev →
  ∃ tod mid user rest,
    tod ≠ "" ∧ allOf cls_tod tod = true
    ∧ user ≠ "" ∧ allOf cls_nonspace user = true
    ∧ line = "[" ++ tod ++ "] [" ++ mid ++ "]: " ++ user ++ rest
    ∧ eventUser ev = Mcuser user (parseSince e (date ++ " " ++ tod)).1
    ∧ match ev with
      | Conn _ =>
          ∃ meta rest', rest = "[" ++ meta ++ "] logged in with entity id" ++ rest'
      | Disc _ => ∃ rest', rest = " lost connection:" ++ rest'
      end.
Proof.
  rewrite extractLine_matchLine. unfold matchLine.
  destruct (matchAnchored logonre line) as [m|] eqn:Hon.
  - cbn [mbind option_bind eventOf]. intros [= <-].
    destruct (login_shape line m Hon)
      as (tod & mid & user & meta & rest & -> & ? & ? & ? & ? & ? & ? & ->).
    exists tod, mid, user, ("[" ++ meta ++ "] logged in with entity id" ++ rest).
    split_and!; try done. by exists meta, rest.
  - destruct (matchAnchored logoutre line) as [m|] eqn:Hoff; [|done].
    cbn [mbind option_bind eventOf]. intros [= <-].
    destruct (logout_shape line m Hoff)
      as (tod & mid & user & rest & -> & ? & ? & ? & ? & ? & ->).
    exists tod, mid, user, (" lost connection:" ++ rest).
    split_and!; try done. by exists rest.
Qed.

Lemma X17_lines_that_give_events_witness :
  ∃ tod mid user rest,
    tod ≠ "" ∧ allOf cls_tod tod = true
    ∧ user ≠ "" ∧ allOf cls_nonspace user = true
    ∧ lateLine = "[" ++ tod ++ "] [" ++ mid ++ "]: " ++ user ++ rest
    ∧ eventUser (Disc (Mcuser "Steve" zeroTime))
      = Mcuser user (parseSince est ("2014-03-02" ++ " " ++ tod)).1
    ∧ ∃ rest', rest = " lost connection:" ++ rest'.
Proof.
  apply (X17_lines_that_give_events est "2014-03-02" lateLine
           (Disc (Mcuser "Steve" zeroTime))).
  vm_compute. reflexivity.
Defined.

(** ** Dates and times that parse *)

Lemma digitChar_spec (k : Z) :
  0 <= k <= 9 →
  isDigit (digitChar k) = true ∧ digitVal (digitChar k) = k
  ∧ byte_eqb (digitChar k) " "%char = false.
Proof.
  intros Hk.
  assert (k = 0 ∨ k = 1 ∨ k = 2 ∨ k = 3 ∨ k = 4 ∨ k = 5 ∨ k = 6 ∨ k = 7
          ∨ k = 8 ∨ k = 9) as Hcases by lia.
  repeat (destruct Hcases as [->|Hcases]); try subst k; by vm_compute.
Qed.

Lemma append_nil_l (s : string) : "" ++ s = s.
Proof. done. Qed.

Lemma getnum_pad2 (n : Z) (fixed : bool) (rest : string) :
  0 <= n <= 99 → getnum (pad2 n ++ rest) fixed = Some (n, rest).
Proof.
  intros Hn. unfold pad2. rewrite !append_cons. change ("" ++ rest) with rest.
  destruct (digitChar_spec (n / 10)) as (Ha & Hva & _); [Z.div_mod_to_equations; lia|].
  destruct (digitChar_spec (n mod 10)) as (Hb & Hvb & _); [Z.div_mod_to_equations; lia|].
  unfold getnum. rewrite Ha, Hb, Hva, Hvb. do 2 f_equal. Z.div_mod_to_equations; lia.
Qed.

Lemma getyear_pad4 (n : Z) (rest : string) :
  0 <= n <= 9999 → getyear (pad4 n ++ rest) = Some (n, rest).
Proof.
  intros Hn. unfold pad4, pad2. rewrite !append_cons.
  change ("" ++ rest) with rest.
  destruct (digitChar_spec (n / 1000)) as (Ha & Hva & _); [Z.div_mod_to_equations; lia|].
  destruct (digitChar_spec (n / 100 mod 10)) as (Hb & Hvb & _); [Z.div_mod_to_equations; lia|].
  destruct (digitChar_spec (n mod 100 / 10)) as (Hc & Hvc & _); [Z.div_mod_to_equations; lia|].
  destruct (digitChar_spec (n mod 100 mod 10)) as (Hd & Hvd & _); [Z.div_mod_to_equations; lia|].
  unfold getyear. rewrite Ha, Hb, Hc, Hd, Hva, Hvb, Hvc, Hvd.
  cbn [andb]. do 2 f_equal. Z.div_mod_to_equations; lia.
Qed.

Lemma skipSpace_pad2 (n : Z) (rest : string) :
  0 <= n <= 99 → skipSpace (" " ++ pad2 n ++ rest) = Some (pad2 n ++ rest).
Proof.
  intros Hn. unfold pad2.
  repeat (rewrite append_cons || rewrite append_nil_l).
  destruct (digitChar_spec (n / 10)) as (_ & _ & Hsp); [Z.div_mod_to_equations; lia|].
  cbn [skipSpace cutspace]. change (byte_eqb " " " ") with true.
  cbv iota. by rewrite Hsp.
Qed.

Lemma skipByte_lit (c : ascii) (rest : string) :
  skipByte c (String c "" ++ rest) = Some rest.
Proof.
  rewrite append_cons. change ("" ++ rest) with rest. cbn [skipByte].
  unfold byte_eqb. by rewrite Ascii.eqb_refl.
Qed.



(** ** Archives *)

(** X19. An archive is read whole at every read: whatever the cursor of
    the live file is, a gzip file that opens and decompresses sends the
    events of its whole contents, [readLog] returns [nil] and the cursor
    stays as it was. *)
Theorem X19_archive_read_whole (e : env) (logfile : string) (logf : file)
    (pos : Z) :
  gzReadable e logfile logf →
  sent (readLog e logfile logf pos).1.1
  = eventsIn e (dateOf e logfile logf) (f_bytes logf)
  ∧ (readLog e logfile logf pos).1.2 = None
  ∧ (readLog e logfile logf pos).2 = pos.
Proof.
  intros (Hext & Hopen & Hgz & Hdate).
  unfold readLog, getLogReader, dateOf. rewrite Hopen, Hgz.
  rewrite decide_True by done.
  destruct (resolveDate e logfile logf) as [date err]. cbn [fst snd] in *.
  subst err. unfold readLoop. cbn [r_data].
  rewrite decide_False by (intros Hne; done). cbn [fst snd app].
  split; [|done]. unfold sent at 1. cbn [omap list_omap sentEvent].
  apply sent_sends.
Qed.

Lemma X19_archive_read_whole_witness :
  sent (readLog est "logs/2014-03-02-1.log.gz" (gzFile (steveLine ++ "
")) 500).1.1
  = eventsIn est (dateOf est "logs/2014-03-02-1.log.gz" (gzFile (steveLine ++ "
"))) (steveLine ++ "
")
  ∧ (readLog est "logs/2014-03-02-1.log.gz" (gzFile (steveLine ++ "
")) 500).1.2 = None
  ∧ (readLog est "logs/2014-03-02-1.log.gz" (gzFile (steveLine ++ "
")) 500).2 = 500.
Proof.
  apply (X19_archive_read_whole est "logs/2014-03-02-1.log.gz"
           (gzFile (steveLine ++ "
")) 500).
  repeat split; vm_compute; congruence.
Defined.

(** ** From the events to the display *)

Lemma lastEventOf_name (u : string) (evs : list event) (ev : event) :
  lastEventOf u evs = Some ev → name (eventUser ev) = u.
Proof.
  unfold lastEventOf. intros Hlast. apply last_Some_elem_of in Hlast.
  by apply list_elem_of_filter in Hlast as [Hname _].
Qed.

Lemma usersOn_track (evs : list event) (u : string) :
  usersOn (track initTables evs) !! u
  = match lastEventOf u evs with
    | Some (Conn user) => Some user
    | _ => None
    end.
Proof.
  induction evs as [|ev evs IH] using rev_ind; [done|].
  rewrite track_snoc, lastEventOf_snoc.
  destruct ev as [user|user]; cbn [step eventUser usersOn];
    destruct (decide (name user = u)) as [<-|Hne].
  - apply lookup_insert_eq.
  - by rewrite lookup_insert_ne.
  - apply lookup_delete_eq.
  - by rewrite lookup_delete_ne.
Qed.

(** X20. The players the display lists are the users whose last event is
    a login, each with the record of that login: whatever the order of the
    [range], a record is visited exactly when it is the user of the last
    event that carries its name and that event is a login; and as many
    records are visited as [usersOn] has entries. *)
Theorem X20_players_listed (evs : list event) (ons : list mcuser) :
  rangeOf (usersOn (track initTables evs)) ons →
  (∀ user, user ∈ ons ↔ lastEventOf (name user) evs = Some (Conn user))
  ∧ length ons = size (usersOn (track initTables evs)).
Proof.
  intros Hons. split.
  - intros user. rewrite (rangeOf_elem _ ons user Hons). split.
    + intros [k Hk]. rewrite usersOn_track in Hk.
      destruct (lastEventOf k evs) as [[user'|user']|] eqn:Hlast; [|done..].
      injection Hk as ->.
      apply lastEventOf_name in Hlast as Hname. cbn in Hname. by subst k.
    + intros Hlast. exists (name user). by rewrite usersOn_track, Hlast.
  - unfold rangeOf in Hons. rewrite Hons, length_fmap.
    apply length_map_to_list.
Qed.

Lemma X20_players_listed_witness :
  (∀ user, user ∈ [Mcuser "Al" 7]
           ↔ lastEventOf (name user)
               [Conn (Mcuser "Al" 5); Disc (Mcuser "Bo" 6); Conn (Mcuser "Al" 7)]
             = Some (Conn user))
  ∧ length [Mcuser "Al" 7]
    = size (usersOn (track initTables
              [Conn (Mcuser "Al" 5); Disc (Mcuser "Bo" 6); Conn (Mcuser "Al" 7)])).
Proof.
  apply (X20_players_listed
           [Conn (Mcuser "Al" 5); Disc (Mcuser "Bo" 6); Conn (Mcuser "Al" 7)]
           [Mcuser "Al" 7]).
  unfold rangeOf. vm_compute. reflexivity.
Defined.
